(** * Trading agent dashboard: snapshot reconciliation and regime statistics

    A shallow embedding of the computational core of [main.py]:
    - [get_closed_positions]: closed positions inferred from consecutive
      account snapshots;
    - [ui_closed_positions]: regime split of the closed positions and the
      win/loss statistics ([calculate_stats]);
    - [ui_pnl_stats]: balance PnL of the archive and of the current regime.

    Modelling conventions.
    - A Python [datetime] is a naive instant, an integer number of
      microseconds since 0001-01-01T00:00:00; [.date()] is its proleptic
      Gregorian ordinal, as [datetime.date.toordinal] has it.
    - A Python [float] is a rational ([Q]).  Prices, balances and the PnL
      of the balance series are exact; the win rate, whose displayed digit
      depends on it, is computed with the rounding of binary64 (see
      [rnd53]).  NaN and infinities are outside the model.
    - A Python [dict] whose iteration order the code relies on is an
      association list in insertion order with unique keys; the tracking
      dictionary [position_start_times], which is only looked up, inserted
      into and deleted from, is a [gmap].
    - The rows fetched from the data base are the input of every function:
      the cursor is not modelled, the SQL text is (see [fetch_rows]). *)

From Stdlib Require Import ZArith QArith Lia.
From stdpp Require Import gmap strings list fin_maps sorting.

Set Default Proof Using "Type".
Local Open Scope Z_scope.

(** ** Python dictionaries in insertion order *)

Section dict.
Context {K V : Type} `{EqDecision K}.

(** [d.get(k)] *)
Fixpoint dict_get (k : K) (d : list (K * V)) : option V :=
  match d with
  | [] => None
  | (k', v) :: d' => if decide (k = k') then Some v else dict_get k d'
  end.

(** [k in d] *)
Definition dict_mem (k : K) (d : list (K * V)) : bool :=
  match dict_get k d with Some _ => true | None => false end.

(** [d[k] = v]: an existing key keeps its place, a new key goes last. *)
Fixpoint dict_set (k : K) (v : V) (d : list (K * V)) : list (K * V) :=
  match d with
  | [] => [(k, v)]
  | (k', v') :: d' =>
      if decide (k = k') then (k, v) :: d' else (k', v') :: dict_set k v d'
  end.

(** [d[k] = f(d[k])] for a key that is present (no change otherwise). *)
Fixpoint dict_alter (f : V → V) (k : K) (d : list (K * V)) : list (K * V) :=
  match d with
  | [] => []
  | (k', v') :: d' =>
      if decide (k = k') then (k', f v') :: d' else (k', v') :: dict_alter f k d'
  end.
End dict.

(** ** Data model *)

Definition datetime := Z.

(** One row of the query of [get_closed_positions]:
    [s.id, s.created_at, op.symbol, op.side, op.entry_price, op.mark_price,
     op.pnl_usd, op.leverage]; a SQL NULL is [None]. *)
Record Row := mkRow {
  row_snap_id : Z;
  row_created_at : datetime;
  row_symbol : string;
  row_side : string;
  row_entry_price : option Q;
  row_mark_price : option Q;
  row_pnl_usd : option Q;
  row_leverage : option string
}.

(** The inner dictionary stored under [positions[pos_key]]. *)
Record PosData := mkPosData {
  pd_symbol : string;
  pd_side : string;
  pd_entry_price : Q;
  pd_mark_price : Q;
  pd_pnl_usd : Q;
  pd_leverage : option string
}.

(** The value stored under [snapshots_map[snap_id]]. *)
Record Snapshot := mkSnapshot {
  created_at : datetime;
  positions : list (string * PosData)
}.

(** [class ClosedPosition(BaseModel)] *)
Record ClosedPosition := mkClosedPosition {
  symbol : string;
  side : string;
  entry_price : Q;
  exit_price : Q;
  pnl_usd : Q;
  opened_at : datetime;
  closed_at : datetime;
  leverage : option string
}.

(** ** [get_closed_positions] *)

(** [f"{row[2]}_{row[3]}"] *)
Definition pos_key (sym sd : string) : string := sym +:+ "_" +:+ sd.

(** [float(x) if x is not None else 0] *)
Definition float_or_0 (x : option Q) : Q := default 0%Q x.

Definition pos_data_of_row (row : Row) : PosData :=
  {| pd_symbol := row_symbol row;
     pd_side := row_side row;
     pd_entry_price := float_or_0 (row_entry_price row);
     pd_mark_price := float_or_0 (row_mark_price row);
     pd_pnl_usd := float_or_0 (row_pnl_usd row);
     pd_leverage := row_leverage row |}.

(** Body of the loop [for row in rows] that groups the rows by snapshot. *)
Definition add_row (snapshots_map : list (Z * Snapshot)) (row : Row)
    : list (Z * Snapshot) :=
  let snap_id := row_snap_id row in
  let snapshots_map1 :=
    if dict_mem snap_id snapshots_map then snapshots_map
    else dict_set snap_id
           {| created_at := row_created_at row; positions := [] |}
           snapshots_map in
  dict_alter
    (λ snap, {| created_at := created_at snap;
                positions :=
                  dict_set (pos_key (row_symbol row) (row_side row))
                           (pos_data_of_row row) (positions snap) |})
    snap_id snapshots_map1.

Definition build_snapshots_map (rows : list Row) : list (Z * Snapshot) :=
  fold_left add_row rows [].

(** Python's [sorted(xs, key=...)] is stable; so is this insertion sort: an
    element goes in front of the first element whose key is not smaller, and
    every element it is inserted among stood behind it in the input. *)
Section sorted.
Context {A : Type} (key : A → Z).

Fixpoint insert_sorted (x : A) (l : list A) : list A :=
  match l with
  | [] => [x]
  | y :: l' =>
      if key x <=? key y then x :: y :: l' else y :: insert_sorted x l'
  end.

Fixpoint sorted (l : list A) : list A :=
  match l with
  | [] => []
  | x :: l' => insert_sorted x (sorted l')
  end.
End sorted.

(** [sorted(snapshots_map.keys(), key=lambda k: snapshots_map[k]['created_at'])].
    The keys of a dictionary are distinct, so sorting the items by the
    [created_at] of their value and projecting is sorting the keys by the
    [created_at] looked up under them. *)
Definition sorted_snap_items (snapshots_map : list (Z * Snapshot))
    : list (Z * Snapshot) :=
  sorted (λ item, created_at item.2) snapshots_map.

Definition sorted_snap_ids (rows : list Row) : list Z :=
  (sorted_snap_items (build_snapshots_map rows)).*1.

(** The sequence [snapshots_map[sorted_snap_ids[i]]], i = 0, 1, ... that the
    main loop walks. *)
Definition snapshot_sequence (rows : list Row) : list Snapshot :=
  (sorted_snap_items (build_snapshots_map rows)).*2.

(** The two local variables the main loop mutates. *)
Record TrackState := mkTrackState {
  position_start_times : gmap string datetime;
  closed_positions : list ClosedPosition
}.

Definition init_state : TrackState :=
  {| position_start_times := ∅; closed_positions := [] |}.

(** Step 1 of the loop body:
    [for pos_key in curr_positions:
       if pos_key not in position_start_times:
         position_start_times[pos_key] = curr_time] *)
Definition register_start (curr_time : datetime)
    (pst : gmap string datetime) (item : string * PosData)
    : gmap string datetime :=
  match pst !! item.1 with
  | Some _ => pst
  | None => <[item.1 := curr_time]> pst
  end.

Definition register_starts (curr_time : datetime)
    (curr_positions : list (string * PosData)) (pst : gmap string datetime)
    : gmap string datetime :=
  fold_left (register_start curr_time) curr_positions pst.

(** Step 2, body of [for pos_key, pos_data in curr_positions.items()].
    Deleting from a [gmap] does nothing for an absent key, which is the
    guarded [del] of the source. *)
Definition close_if_absent (next_positions : list (string * PosData))
    (curr_time next_time : datetime)
    (st : TrackState) (item : string * PosData) : TrackState :=
  let pos_key := item.1 in
  let pos_data := item.2 in
  if dict_mem pos_key next_positions then st
  else
    let opened_at := default curr_time (position_start_times st !! pos_key) in
    {| position_start_times := delete pos_key (position_start_times st);
       closed_positions :=
         closed_positions st ++
         [ {| symbol := pd_symbol pos_data;
              side := pd_side pos_data;
              entry_price := pd_entry_price pos_data;
              exit_price := pd_mark_price pos_data;
              pnl_usd := pd_pnl_usd pos_data;
              opened_at := opened_at;
              closed_at := next_time;
              leverage := pd_leverage pos_data |} ] |}.

(** One iteration of [for i in range(len(sorted_snap_ids))]: [curr] is the
    snapshot at index [i], [next] the one at [i+1], [None] exactly when
    [i = len(sorted_snap_ids) - 1]. *)
Definition iteration (curr : Snapshot) (next : option Snapshot)
    (st : TrackState) : TrackState :=
  let st1 :=
    {| position_start_times :=
         register_starts (created_at curr) (positions curr)
                         (position_start_times st);
       closed_positions := closed_positions st |} in
  match next with
  | None => st1
  | Some next_snap =>
      fold_left
        (close_if_absent (positions next_snap) (created_at curr)
                         (created_at next_snap))
        (positions curr) st1
  end.

(** The main loop, from a given state. *)
Fixpoint reconcile_from (snaps : list Snapshot) (st : TrackState) : TrackState :=
  match snaps with
  | [] => st
  | curr :: rest => reconcile_from rest (iteration curr (head rest) st)
  end.

(** The state after the first [n] iterations of the main loop. *)
Fixpoint reconcile_steps (n : nat) (snaps : list Snapshot) (st : TrackState)
    : TrackState :=
  match n, snaps with
  | S n', curr :: rest => reconcile_steps n' rest (iteration curr (head rest) st)
  | _, _ => st
  end.

Definition reconcile (snaps : list Snapshot) : TrackState :=
  reconcile_from snaps init_state.

(** [closed_positions.sort(key=lambda x: x.closed_at, reverse=True)]: a
    stable sort, most recent first. *)
Definition sort_closed (l : list ClosedPosition) : list ClosedPosition :=
  sorted (λ x, - closed_at x) l.

Definition get_closed_positions (rows : list Row) : list ClosedPosition :=
  sort_closed (closed_positions (reconcile (snapshot_sequence rows))).

(** The query of [get_closed_positions] over the two tables it reads:
    [FROM account_snapshots s JOIN open_positions op ON s.id = op.snapshot_id
     ORDER BY s.created_at ASC].  Rows of equal [created_at] come in an order
    SQL leaves open: [fetch_rows] below is the result that keeps the order
    of the join, [query_result] describes every result. *)
Record AccountSnapshot := mkAccountSnapshot {
  as_id : Z;
  as_created_at : datetime;
  as_balance_usd : Q
}.

Record OpenPositionRow := mkOpenPositionRow {
  op_snapshot_id : Z;
  op_symbol : string;
  op_side : string;
  op_entry_price : option Q;
  op_mark_price : option Q;
  op_pnl_usd : option Q;
  op_leverage : option string
}.

Definition join_row (s : AccountSnapshot) (op : OpenPositionRow) : Row :=
  {| row_snap_id := as_id s;
     row_created_at := as_created_at s;
     row_symbol := op_symbol op;
     row_side := op_side op;
     row_entry_price := op_entry_price op;
     row_mark_price := op_mark_price op;
     row_pnl_usd := op_pnl_usd op;
     row_leverage := op_leverage op |}.

Definition fetch_rows (account_snapshots : list AccountSnapshot)
    (open_positions : list OpenPositionRow) : list Row :=
  sorted row_created_at
    (s ← account_snapshots;
     join_row s <$> filter (λ op, as_id s = op_snapshot_id op) open_positions).

(** ** Calendar dates *)

Definition us_per_day : Z := 86400000000.

(** [datetime.date()], as the ordinal of the day (day 1 is 0001-01-01). *)
Definition date (t : datetime) : Z := t / us_per_day + 1.

Definition is_leap (y : Z) : bool :=
  (y mod 4 =? 0) && (negb (y mod 100 =? 0) || (y mod 400 =? 0)).

Definition days_before_year (y : Z) : Z :=
  let y' := y - 1 in y' * 365 + y' / 4 - y' / 100 + y' / 400.

Definition days_before_month (y m : Z) : Z :=
  nth (Z.to_nat m) [0; 0; 31; 59; 90; 120; 151; 181; 212; 243; 273; 304; 334] 0
  + (if (2 <? m) && is_leap y then 1 else 0).

(** The ordinal of the calendar date [y]-[m]-[d]. *)
Definition ymd2ord (y m d : Z) : Z :=
  days_before_year y + days_before_month y m + d.

(** [split_date = datetime(2025, 12, 5).date()] *)
Definition split_date : Z := ymd2ord 2025 12 5.

(** ** [ui_closed_positions] *)

Global Instance Qlt_decision (x y : Q) : Decision (x < y)%Q.
Proof.
  destruct (Qlt_le_dec x y) as [H|H]; [left; exact H | right].
  intros H'. exact (Qlt_not_le _ _ H' H).
Defined.

(** The nearest integer to an exact value, a tie going to the even one. *)
Definition round_half_even (x : Q) : Z :=
  let n := Qnum x in
  let d := Z.pos (Qden x) in
  let q := n / d in
  match 2 * (n mod d) ?= d with
  | Lt => q
  | Gt => q + 1
  | Eq => if Z.even q then q else q + 1
  end.

(** *** The floats of the win rate

    The win rate is computed in binary64 and its printed digit depends on
    the rounding of every operation, so here a float is a rational that is
    a binary64 number, and an operation is the exact operation followed by
    [rnd53], rounding to the nearest number with a significand of 53 bits,
    a tie going to the even significand.  The exponent is not bounded: the
    values of the win rate, between [1 / total] and 100, are far from
    overflow and underflow. *)

(** [x] times 2 to the power [e]. *)
Definition scale2 (e : Z) (x : Q) : Q :=
  if 0 <? e then (x * inject_Z (2 ^ e))%Q else (x / inject_Z (2 ^ (- e)))%Q.

(** For [x > 0], the exponent [e] of the last bit of its binary64
    significand: [2^52 <= x / 2^e < 2^53]. *)
Definition fexp (x : Q) : Z :=
  let e0 := Z.log2 (Qnum x) - Z.log2 (Z.pos (Qden x)) - 53 in
  if Qle_bool (inject_Z (2 ^ 53)) (scale2 (- e0) x) then e0 + 1 else e0.

Definition rnd53_pos (x : Q) : Q :=
  scale2 (fexp x) (inject_Z (round_half_even (scale2 (- fexp x) x))).

Definition rnd53 (x : Q) : Q :=
  match Qnum x with
  | 0 => 0%Q
  | Z.pos _ => rnd53_pos x
  | Z.neg _ => (- rnd53_pos (- x))%Q
  end.

(** [a / b] and [a * b] on floats, and [wins / total] on integers, which
    Python rounds once, from the exact quotient. *)
Definition float_div (a b : Q) : Q := rnd53 (a / b).
Definition float_mul (a b : Q) : Q := rnd53 (a * b).

(** [round(x, 1)] on a float: the decimal with one digit nearest to the
    exact value of [x], a tie going to the even digit, and then the float
    nearest to that decimal. *)
Definition round1 (x : Q) : Q :=
  rnd53 (inject_Z (round_half_even (x * 10)) / 10).

Record Stats := mkStats {
  total : Z;
  wins : Z;
  losses : Z;
  win_rate : Q
}.

(** [(wins / total * 100) if total > 0 else 0] *)
Definition win_rate_of (wins total : Z) : Q :=
  if 0 <? total then float_mul (float_div (inject_Z wins) (inject_Z total)) 100
  else 0%Q.

(** The local function [calculate_stats]. *)
Definition calculate_stats (pos_list : list ClosedPosition) : Stats :=
  let total := Z.of_nat (length pos_list) in
  let wins := Z.of_nat (length (filter (λ p, (0 < pnl_usd p)%Q) pos_list)) in
  let losses := total - wins in
  let win_rate := win_rate_of wins total in
  {| total := total; wins := wins; losses := losses;
     win_rate := round1 win_rate |}.

Definition current_positions (positions : list ClosedPosition)
    : list ClosedPosition :=
  filter (λ p, split_date ≤ date (opened_at p)) positions.

Definition archive_positions (positions : list ClosedPosition)
    : list ClosedPosition :=
  filter (λ p, date (opened_at p) < split_date) positions.

(** The template context of [ui_closed_positions]. *)
Record ClosedPositionsView := mkClosedPositionsView {
  view_current_positions : list ClosedPosition;
  view_archive_positions : list ClosedPosition;
  view_current_stats : Stats;
  view_archive_stats : Stats
}.

Definition ui_closed_positions (rows : list Row) : ClosedPositionsView :=
  let positions := get_closed_positions rows in
  {| view_current_positions := take 20 (current_positions positions);
     view_archive_positions := take 20 (archive_positions positions);
     view_current_stats := calculate_stats (current_positions positions);
     view_archive_stats := calculate_stats (archive_positions positions) |}.

(** ** [ui_pnl_stats] *)

(** [class BalancePoint(BaseModel)] *)
Record BalancePoint := mkBalancePoint {
  timestamp : datetime;
  balance_usd : Q
}.

(** The dictionaries [archive_stats] and [current_stats]; the key [pnl_usd]
    is [stats_pnl_usd] here, [ClosedPosition] has the name. *)
Record BalanceStats := mkBalanceStats {
  initial_balance : Q;
  current_balance : Q;
  stats_pnl_usd : Q;
  pnl_percent : Q
}.

(** The template context of [ui_pnl_stats]. *)
Record PnlView := mkPnlView {
  current_stats : option BalanceStats;
  archive_stats : option BalanceStats;
  has_data : bool
}.

Global Instance Qeq_decision (x y : Q) : Decision (x == y)%Q := Qeq_dec x y.

(** The balance the current regime starts from (the literal [1032.0]). *)
Definition initial_balance_new : Q := 1032.

Definition archive_points (points : list BalancePoint) : list BalancePoint :=
  filter (λ p, date (timestamp p) < split_date) points.

Definition current_points (points : list BalancePoint) : list BalancePoint :=
  filter (λ p, split_date ≤ date (timestamp p)) points.

Definition compute_archive_stats (points : list BalancePoint)
    : option BalanceStats :=
  match archive_points points with
  | [] => None
  | first :: _ =>
      let initial_balance_old := balance_usd first in
      let final_balance_old :=
        balance_usd (List.last (archive_points points) first) in
      let pnl_usd_old := (final_balance_old - initial_balance_old)%Q in
      let pnl_percent_old :=
        if decide (initial_balance_old == 0)%Q then 0%Q
        else (pnl_usd_old / initial_balance_old * 100)%Q in
      Some {| initial_balance := initial_balance_old;
              current_balance := final_balance_old;
              stats_pnl_usd := pnl_usd_old;
              pnl_percent := pnl_percent_old |}
  end.

Definition compute_current_stats (points : list BalancePoint)
    : option BalanceStats :=
  match current_points points with
  | first :: _ =>
      let current_balance_new :=
        balance_usd (List.last (current_points points) first) in
      let pnl_usd_new := (current_balance_new - initial_balance_new)%Q in
      let pnl_percent_new :=
        if decide (initial_balance_new == 0)%Q then 0%Q
        else (pnl_usd_new / initial_balance_new * 100)%Q in
      Some {| initial_balance := initial_balance_new;
              current_balance := current_balance_new;
              stats_pnl_usd := pnl_usd_new;
              pnl_percent := pnl_percent_new |}
  | [] =>
      Some {| initial_balance := 1032;
              current_balance := 1032;
              stats_pnl_usd := 0;
              pnl_percent := 0 |}
  end.

Definition ui_pnl_stats (points : list BalancePoint) : PnlView :=
  match points with
  | [] => {| current_stats := None; archive_stats := None; has_data := false |}
  | _ :: _ =>
      {| current_stats := compute_current_stats points;
         archive_stats := compute_archive_stats points;
         has_data := true |}
  end.

(** ** Vocabulary of the statements *)

(** The key under which the reconciler files a closed position. *)
Definition cp_key (cp : ClosedPosition) : string :=
  pos_key (symbol cp) (side cp).

(** [k in snap['positions']] *)
Definition has_key (k : string) (snap : Snapshot) : Prop :=
  dict_mem k (positions snap) = true.

Global Instance has_key_decision k snap : Decision (has_key k snap).
Proof. unfold has_key. apply _. Defined.

(** The closed position the loop body builds from a record of the current
    snapshot, a start time and the time of the next snapshot. *)
Definition closed_of (pd : PosData) (opened closed : datetime) : ClosedPosition :=
  {| symbol := pd_symbol pd;
     side := pd_side pd;
     entry_price := pd_entry_price pd;
     exit_price := pd_mark_price pd;
     pnl_usd := pd_pnl_usd pd;
     opened_at := opened;
     closed_at := closed;
     leverage := pd_leverage pd |}.

(** The closed positions one iteration appends for the pair [curr], [next]
    when the tracking dictionary holds [pst] after step 1. *)
Definition closures (pst : gmap string datetime) (curr next : Snapshot)
    : list ClosedPosition :=
  omap (λ item : string * PosData,
          if dict_mem item.1 (positions next) then None
          else Some (closed_of item.2
                       (default (created_at curr) (pst !! item.1))
                       (created_at next)))
       (positions curr).


(** What the grouping loop guarantees of every snapshot it builds: distinct
    keys, each the key of the record filed under it. *)
Definition wf_positions (d : list (string * PosData)) : Prop :=
  NoDup d.*1 ∧ ∀ k pd, (k, pd) ∈ d → k = pos_key (pd_symbol pd) (pd_side pd).

Definition wf_snapshot (snap : Snapshot) : Prop := wf_positions (positions snap).

(** The distinct elements of a list in the order of their first occurrence. *)
Fixpoint first_seen (ids : list Z) : list Z :=
  match ids with
  | [] => []
  | x :: ids' => x :: filter (λ y, y ≠ x) (first_seen ids')
  end.

Definition with_closed_at (t : datetime) (p : ClosedPosition) : ClosedPosition :=
  {| symbol := symbol p; side := side p; entry_price := entry_price p;
     exit_price := exit_price p; pnl_usd := pnl_usd p;
     opened_at := opened_at p; closed_at := t; leverage := leverage p |}.

(** The first of the rows that belong to snapshot [id]. *)
Definition first_row (id : Z) (rows : list Row) : option Row :=
  head (filter (λ row, row_snap_id row = id) rows).

(** What grouping the rows [rows] has built in [m]. *)
Record build_inv (rows : list Row) (m : list (Z * Snapshot)) : Prop := {
  inv_keys : m.*1 = first_seen (row_snap_id <$> rows);
  inv_wf : ∀ id snap, (id, snap) ∈ m → wf_snapshot snap ∧ positions snap ≠ [];
  inv_rows : ∀ id snap k pd, (id, snap) ∈ m → (k, pd) ∈ positions snap →
    ∃ row, row ∈ rows ∧ row_snap_id row = id ∧
           k = pos_key (row_symbol row) (row_side row) ∧
           pd = pos_data_of_row row;
  inv_time : ∀ id snap, (id, snap) ∈ m →
    ∃ row, first_row id rows = Some row ∧ created_at snap = row_created_at row
}.

(** The last balance of a regime, or the override when it has no point. *)
Definition balance_last (override : Q) (pts : list BalancePoint) : Q :=
  match pts with
  | [] => override
  | first :: _ => balance_usd (List.last pts first)
  end.

(** ** Sample inputs *)

Definition scenario_c : list ClosedPosition :=
  [ mkClosedPosition "BTC" "long" 100 105 5 0 1 None;
    mkClosedPosition "ETH" "short" 50 52 (-2) 0 1 None;
    mkClosedPosition "SOL" "long" 10 11 1 0 1 None ].

Definition sample_row (id t : Z) (sym sd : string) (mark : option Q) : Row :=
  {| row_snap_id := id; row_created_at := t; row_symbol := sym; row_side := sd;
     row_entry_price := Some 100%Q; row_mark_price := mark;
     row_pnl_usd := Some 3%Q; row_leverage := Some "5x" |}.

(** Scenario A: BTC/long at t=1; BTC/long and ETH/short at t=2; ETH/short
    at t=3. *)
Definition scenario_a : list Row :=
  [ sample_row 1 1 "BTC" "long" (Some 101%Q);
    sample_row 2 2 "BTC" "long" None;
    sample_row 2 2 "ETH" "short" (Some 50%Q);
    sample_row 3 3 "ETH" "short" (Some 49%Q) ].

(** A key that is present, absent and present again. *)
Definition reopen_rows : list Row :=
  [ sample_row 1 1 "BTC" "long" (Some 101%Q);
    sample_row 2 2 "ETH" "short" (Some 50%Q);
    sample_row 3 3 "BTC" "long" (Some 99%Q) ].

(** Two snapshots of one timestamp, the larger id fetched first. *)
Definition tie_rows : list Row :=
  [ sample_row 2 5 "BTC" "long" (Some 101%Q);
    sample_row 1 5 "ETH" "short" (Some 50%Q) ].

(** Three snapshots, the middle one without positions. *)
Definition gap_snapshots : list AccountSnapshot :=
  [ mkAccountSnapshot 1 10 1000; mkAccountSnapshot 2 20 1000;
    mkAccountSnapshot 3 30 1000 ].

Definition gap_positions : list OpenPositionRow :=
  [ mkOpenPositionRow 1 "BTC" "long" (Some 100%Q) (Some 101%Q) (Some 3%Q) None;
    mkOpenPositionRow 3 "ETH" "short" (Some 50%Q) (Some 49%Q) (Some 1%Q) None ].

(** One balance point, on the split date. *)
Definition current_only : list BalancePoint :=
  [ mkBalancePoint ((split_date - 1) * us_per_day) 1100 ].

(** Snapshots with equal timestamps are processed by ascending id. *)
Definition ties_broken_by_id (rows : list Row) : Prop :=
  ∀ (i j : nat) (a b : Z * Snapshot),
    sorted_snap_items (build_snapshots_map rows) !! i = Some a →
    sorted_snap_items (build_snapshots_map rows) !! j = Some b →
    (i < j)%nat → created_at a.2 = created_at b.2 → a.1 < b.1.

(** One point on the day before the split date, two from the split date on. *)
Definition scenario_b : list BalancePoint :=
  [ mkBalancePoint ((split_date - 2) * us_per_day) 100;
    mkBalancePoint ((split_date - 1) * us_per_day) 1050;
    mkBalancePoint (split_date * us_per_day) 1100 ].

(** ** Vocabulary of the further properties *)

(** The key [k] is in every snapshot of the sequence from index [j] to
    index [i]. *)
Definition present_between (k : string) (snaps : list Snapshot) (j i : nat) : Prop :=
  ∀ m : nat, (j ≤ m ≤ i)%nat → ∃ snap, snaps !! m = Some snap ∧ has_key k snap.

(** A run of [k] starts at index [j]: there is no snapshot before, or the
    one before lacks [k]. *)
Definition run_start (k : string) (snaps : list Snapshot) (j : nat) : Prop :=
  j = 0%nat ∨ ∃ prev, snaps !! pred j = Some prev ∧ ¬ has_key k prev.

(** The records of [curr] whose key is not in [next]. *)
Definition vanished (curr next : Snapshot) : list (string * PosData) :=
  filter (λ item, dict_mem item.1 (positions next) = false) (positions curr).

(** The number of records that vanish between adjacent snapshots. *)
Fixpoint vanish_count (snaps : list Snapshot) : nat :=
  match snaps with
  | curr :: (next :: _) as rest =>
      (length (vanished curr next) + vanish_count rest)%nat
  | _ => 0%nat
  end.

(** The rows of snapshot [id] filed under the key [k]. *)
Definition rows_of (id : Z) (k : string) (rows : list Row) : list Row :=
  filter (λ row, row_snap_id row = id
                 ∧ pos_key (row_symbol row) (row_side row) = k) rows.

(** [snapshots_map[id]['positions'].get(k)], nothing when [id] is no key. *)
Definition stored_record (id : Z) (k : string) (m : list (Z * Snapshot))
    : option PosData :=
  dict_get id m ≫= λ snap, dict_get k (positions snap).

(** The open-position rows of snapshot [id] with the key [k]. *)
Definition ops_of (id : Z) (k : string) (ops : list OpenPositionRow)
    : list OpenPositionRow :=
  filter (λ op, op_snapshot_id op = id
                ∧ pos_key (op_symbol op) (op_side op) = k) ops.

(** One snapshot with two rows of one key. *)
Definition dup_rows : list Row :=
  [ sample_row 1 1 "BTC" "long" (Some 101%Q);
    sample_row 1 1 "ETH" "short" (Some 50%Q);
    sample_row 1 1 "BTC" "long" (Some 102%Q) ].

(** An ascending balance series (see [scenario_b]) read as a series that
    is sorted by timestamp. *)
Definition ascending (points : list BalancePoint) : Prop :=
  StronglySorted (λ p q, timestamp p ≤ timestamp q) points.

(** ** Further sample inputs *)

(** [w] closed positions with a positive pnl among [t]. *)
Definition wins_among (w t : nat) : list ClosedPosition :=
  replicate w (mkClosedPosition "BTC" "long" 100 105 5 0 1 None)
  ++ replicate (t - w) (mkClosedPosition "ETH" "short" 50 52 (-2) 0 1 None).

(** The keys of the open-position rows of an account snapshot. *)
Definition keys_of_snapshot (ops : list OpenPositionRow) (s : AccountSnapshot)
    : list string :=
  (λ op, pos_key (op_symbol op) (op_side op))
    <$> filter (λ op, op_snapshot_id op = as_id s) ops.

(** A key that is present, absent, present and absent again. *)
Definition reopen_twice_rows : list Row :=
  [ sample_row 1 1 "BTC" "long" (Some 101%Q);
    sample_row 2 2 "ETH" "short" (Some 50%Q);
    sample_row 3 3 "BTC" "long" (Some 99%Q);
    sample_row 4 4 "ETH" "short" (Some 51%Q) ].

(** A key that is present, absent from a snapshot without positions, and
    present again. *)
Definition flat_reopen_snapshots : list AccountSnapshot :=
  [ mkAccountSnapshot 1 10 1000; mkAccountSnapshot 2 20 1000;
    mkAccountSnapshot 3 30 1000 ].

Definition flat_reopen_positions : list OpenPositionRow :=
  [ mkOpenPositionRow 1 "BTC" "long" (Some 100%Q) (Some 101%Q) (Some 3%Q) None;
    mkOpenPositionRow 3 "BTC" "long" (Some 100%Q) (Some 99%Q) (Some 1%Q) None ].

(** The rows of the join, before [ORDER BY]. *)
Definition joined (account_snapshots : list AccountSnapshot)
    (open_positions : list OpenPositionRow) : list Row :=
  s ← account_snapshots;
  join_row s <$> filter (λ op, as_id s = op_snapshot_id op) open_positions.

(** What the query may return: the rows of the join, non-decreasing in
    [created_at].  The order of rows that tie is left open, as SQL leaves
    it; [fetch_rows] is one such result. *)
Definition query_result (account_snapshots : list AccountSnapshot)
    (open_positions : list OpenPositionRow) (rows : list Row) : Prop :=
  rows ≡ₚ joined account_snapshots open_positions ∧
  Sorted (λ r1 r2, row_created_at r1 ≤ row_created_at r2) rows.

(** Two open-position rows of one snapshot and one key, and the query
    result that returns them in the order opposite to the table's. *)
Definition twin_snapshots : list AccountSnapshot :=
  [ mkAccountSnapshot 1 10 1000 ].

Definition twin_positions : list OpenPositionRow :=
  [ mkOpenPositionRow 1 "BTC" "long" (Some 100%Q) (Some 101%Q) (Some 3%Q) None;
    mkOpenPositionRow 1 "BTC" "long" (Some 100%Q) (Some 102%Q) (Some 4%Q) None ].

Definition twin_rows_reversed : list Row :=
  reverse (joined twin_snapshots twin_positions).

(** * Properties *)

(** ** The functions on the sample inputs *)

Example get_closed_positions_scenario_a :
  get_closed_positions scenario_a
  = [ {| symbol := "BTC"; side := "long"; entry_price := 100; exit_price := 0;
         pnl_usd := 3; opened_at := 1; closed_at := 3;
         leverage := Some "5x" |} ].
Proof. reflexivity. Qed.

Example get_closed_positions_reopen :
  get_closed_positions reopen_rows
  = [ {| symbol := "ETH"; side := "short"; entry_price := 100; exit_price := 50;
         pnl_usd := 3; opened_at := 2; closed_at := 3;
         leverage := Some "5x" |};
      {| symbol := "BTC"; side := "long"; entry_price := 100; exit_price := 101;
         pnl_usd := 3; opened_at := 1; closed_at := 2;
         leverage := Some "5x" |} ].
Proof. reflexivity. Qed.

Example calculate_stats_scenario_c :
  calculate_stats scenario_c
  = {| total := 3; wins := 2; losses := 1; win_rate := rnd53 66.7 |}.
Proof. by vm_compute. Qed.

(** The float nearest to 0.1, and a win rate whose exact value, 28.75, is
    half-way between two decimals while its float is just below. *)
Example rnd53_tenth :
  Qred (rnd53 0.1) = (3602879701896397 # 36028797018963968)%Q.
Proof. by vm_compute. Qed.

Example calculate_stats_23_of_80 :
  calculate_stats (wins_among 23 80)
  = {| total := 80; wins := 23; losses := 57; win_rate := rnd53 28.7 |}.
Proof. by vm_compute. Qed.

Example calculate_stats_1_of_2000 :
  win_rate (calculate_stats (wins_among 1 2000)) = rnd53 0.1.
Proof. by vm_compute. Qed.

Example ui_pnl_stats_scenario_b :
  ui_pnl_stats scenario_b
  = {| current_stats :=
         Some {| initial_balance := 1032; current_balance := 1100;
                 stats_pnl_usd := 68; pnl_percent := 6800 # 1032 |};
       archive_stats :=
         Some {| initial_balance := 100; current_balance := 100;
                 stats_pnl_usd := 0; pnl_percent := 0 # 100 |};
       has_data := true |}.
Proof. reflexivity. Qed.

Example round1_samples :
  round1 (rnd53 (200 # 3)) = rnd53 66.7 ∧ round1 (1 # 4) = rnd53 0.2 ∧
  (round1 100 == 100)%Q.
Proof. split_and!; by vm_compute. Qed.

(** ** Regime statistics *)

Lemma round_half_even_bounds (x : Q) (lo hi : Z) :
  (inject_Z lo <= x)%Q → (x <= inject_Z hi)%Q →
  lo ≤ round_half_even x ≤ hi.
Proof.
  destruct x as [n d]. unfold Qle, round_half_even. simpl.
  rewrite !Z.mul_1_r. intros Hlo Hhi.
  pose proof (Z.div_mod n (Z.pos d) ltac:(lia)) as Hdm.
  pose proof (Z.mod_pos_bound n (Z.pos d) ltac:(lia)) as Hm.
  assert (lo ≤ n / Z.pos d) by (apply Z.div_le_lower_bound; lia).
  assert (n / Z.pos d ≤ hi) by (apply Z.div_le_upper_bound; lia).
  assert (2 * (n `mod` Z.pos d) < Z.pos d ∨ n / Z.pos d + 1 ≤ hi) as Hcase.
  { destruct (decide (n / Z.pos d = hi)) as [Heq|]; [left | right; lia].
    rewrite Heq in Hdm. nia. }
  destruct (Z.compare_spec (2 * (n `mod` Z.pos d)) (Z.pos d));
    [destruct (Z.even _) | | ]; lia.
Qed.

Lemma inject_Z_pow2_pos (k : Z) : 0 ≤ k → (0 < inject_Z (2 ^ k))%Q.
Proof.
  intros Hk. change 0%Q with (inject_Z 0). rewrite <- Zlt_Qlt.
  by apply Z.pow_pos_nonneg.
Qed.

Lemma scale2_up (k : Z) (x : Q) : 0 ≤ k → (scale2 k x == x * inject_Z (2 ^ k))%Q.
Proof.
  intros Hk. unfold scale2. destruct (0 <? k) eqn:Hlt; [done|].
  apply Z.ltb_ge in Hlt. assert (k = 0) as -> by lia.
  change (2 ^ (- 0)) with 1. change (2 ^ 0) with 1. field.
Qed.

Lemma scale2_down (k : Z) (x : Q) : 0 ≤ k → scale2 (- k) x = (x / inject_Z (2 ^ k))%Q.
Proof.
  intros Hk. unfold scale2. rewrite (proj2 (Z.ltb_ge 0 (- k))) by lia.
  by rewrite Z.opp_involutive.
Qed.

Lemma fexp_small (x : Q) :
  (0 < x)%Q → (x <= inject_Z (2 ^ 52))%Q → fexp x ≤ 0.
Proof.
  destruct x as [n d]. unfold Qlt, Qle, fexp. cbn [Qnum Qden inject_Z].
  rewrite !Z.mul_1_r, Z.mul_0_l. intros Hpos Hle.
  assert (Z.log2 n ≤ 52 + Z.log2 (Z.pos d)); [|destruct (Qle_bool _ _); lia].
  etrans; [apply (Z.log2_le_mono n (Z.pos d * 2 ^ 52)); lia|].
  rewrite Z.log2_mul_pow2 by lia. lia.
Qed.

Lemma rnd53_pos_between (x : Q) (lo hi : Z) :
  (0 < x)%Q → hi ≤ 2 ^ 52 →
  (inject_Z lo <= x)%Q → (x <= inject_Z hi)%Q →
  (inject_Z lo <= rnd53_pos x)%Q ∧ (rnd53_pos x <= inject_Z hi)%Q.
Proof.
  intros Hpos Hhi Hlo Hx.
  assert (fexp x ≤ 0) as He.
  { apply fexp_small; [done|]. eapply Qle_trans; [exact Hx|]. by rewrite <- Zle_Qle. }
  assert (rnd53_pos x
          = (inject_Z (round_half_even (scale2 (- fexp x) x))
             / inject_Z (2 ^ (- fexp x)))%Q) as ->.
  { unfold rnd53_pos. rewrite <- (scale2_down (- fexp x)) by lia.
    by rewrite Z.opp_involutive. }
  pose proof (inject_Z_pow2_pos (- fexp x) ltac:(lia)) as HP.
  destruct (round_half_even_bounds (scale2 (- fexp x) x)
              (lo * 2 ^ (- fexp x)) (hi * 2 ^ (- fexp x))) as [Hm1 Hm2].
  - rewrite scale2_up by lia. rewrite inject_Z_mult.
    apply Qmult_le_compat_r; [done | by apply Qlt_le_weak].
  - rewrite scale2_up by lia. rewrite inject_Z_mult.
    apply Qmult_le_compat_r; [done | by apply Qlt_le_weak].
  - split.
    + apply Qle_shift_div_l; [done|]. rewrite <- inject_Z_mult. by rewrite <- Zle_Qle.
    + apply Qle_shift_div_r; [done|]. rewrite <- inject_Z_mult. by rewrite <- Zle_Qle.
Qed.

(** A result between two whole numbers up to 2^52 stays between them. *)
Lemma rnd53_between (x : Q) (lo hi : Z) :
  0 ≤ lo → hi ≤ 2 ^ 52 →
  (inject_Z lo <= x)%Q → (x <= inject_Z hi)%Q →
  (inject_Z lo <= rnd53 x)%Q ∧ (rnd53 x <= inject_Z hi)%Q.
Proof.
  intros Hlo0 Hhi Hlo Hx.
  assert (0 <= x)%Q as Hx0.
  { eapply Qle_trans; [|exact Hlo]. change 0%Q with (inject_Z 0). by rewrite <- Zle_Qle. }
  unfold rnd53. destruct (Qnum x) as [|p|p] eqn:Hn.
  - assert (x == 0)%Q as H0 by (unfold Qeq; rewrite Hn; done).
    rewrite H0 in Hlo, Hx. done.
  - apply rnd53_pos_between; try done.
    unfold Qlt. rewrite Hn. done.
  - exfalso. unfold Qle in Hx0. rewrite Hn in Hx0. simpl in Hx0. lia.
Qed.

Lemma rnd53_exact (x : Q) (n : Z) :
  0 ≤ n ≤ 2 ^ 52 → (x == inject_Z n)%Q → (rnd53 x == inject_Z n)%Q.
Proof.
  intros [Hn0 Hn] Hx.
  destruct (rnd53_between x n n) as [H1 H2]; try done.
  - rewrite Hx. apply Qle_refl.
  - rewrite Hx. apply Qle_refl.
  - by apply Qle_antisym.
Qed.

(** [round_half_even x] is a whole number nearest to [x], the even one of
    the two when [x] is half-way. *)
Lemma round_half_even_nearest (x : Q) :
  (inject_Z (round_half_even x) - (1 # 2) <= x)%Q ∧
  (x <= inject_Z (round_half_even x) + (1 # 2))%Q ∧
  ((x == inject_Z (round_half_even x) - (1 # 2))%Q ∨
   (x == inject_Z (round_half_even x) + (1 # 2))%Q →
   Z.even (round_half_even x) = true).
Proof.
  destruct x as [n d]. unfold round_half_even. cbn [Qnum Qden].
  pose proof (Z.div_mod n (Z.pos d) ltac:(lia)) as Hdm.
  pose proof (Z.mod_pos_bound n (Z.pos d) ltac:(lia)) as Hm.
  set (q := n / Z.pos d) in *. set (r := n `mod` Z.pos d) in *.
  assert (∀ m : Z,
    ((inject_Z m - (1 # 2) <= n # d)%Q ↔ (2 * m - 1) * Z.pos d ≤ 2 * n) ∧
    ((n # d <= inject_Z m + (1 # 2))%Q ↔ 2 * n ≤ (2 * m + 1) * Z.pos d) ∧
    ((n # d == inject_Z m - (1 # 2))%Q ↔ 2 * n = (2 * m - 1) * Z.pos d) ∧
    ((n # d == inject_Z m + (1 # 2))%Q ↔ 2 * n = (2 * m + 1) * Z.pos d)) as Hconv.
  { intros m. unfold Qle, Qeq, Qminus, Qplus, Qopp, inject_Z. cbn [Qnum Qden].
    rewrite ?Pos2Z.inj_mul. split_and!; lia. }
  destruct (Z.compare_spec (2 * r) (Z.pos d)) as [Heq|Hlt|Hgt].
  - destruct (Z.even q) eqn:Hev.
    + destruct (Hconv q) as (H1 & H2 & H3 & H4).
      split; [apply H1; nia|]. split; [apply H2; nia|]. done.
    + destruct (Hconv (q + 1)) as (H1 & H2 & H3 & H4).
      split; [apply H1; nia|]. split; [apply H2; nia|]. intros _.
      rewrite Z.even_add, Hev. done.
  - destruct (Hconv q) as (H1 & H2 & H3 & H4).
    split; [apply H1; nia|]. split; [apply H2; nia|].
    intros [H|H]; [apply H3 in H | apply H4 in H]; nia.
  - destruct (Hconv (q + 1)) as (H1 & H2 & H3 & H4).
    split; [apply H1; nia|]. split; [apply H2; nia|].
    intros [H|H]; [apply H3 in H | apply H4 in H]; nia.
Qed.

Lemma round1_bounds (x : Q) : (0 <= x)%Q → (x <= 100)%Q → (0 <= round1 x <= 100)%Q.
Proof.
  intros H0 H100.
  destruct (round_half_even_bounds (x * 10) 0 1000) as [Hlo Hhi].
  - change (inject_Z 0) with (0 * 10)%Q. apply Qmult_le_compat_r; done.
  - change (inject_Z 1000) with (100 * 10)%Q. apply Qmult_le_compat_r; done.
  - unfold round1. apply (rnd53_between _ 0 100); [done | done | |].
    + apply Qle_shift_div_l; [done|]. rewrite Qmult_0_l.
      change 0%Q with (inject_Z 0). by rewrite <- Zle_Qle.
    + apply Qle_shift_div_r; [done|].
      change (inject_Z 100 * 10)%Q with (inject_Z 1000). by rewrite <- Zle_Qle.
Qed.

Lemma wins_le_total (pos_list : list ClosedPosition) :
  (length (filter (λ p, (0 < pnl_usd p)%Q) pos_list) ≤ length pos_list)%nat.
Proof. apply length_filter. Qed.

Lemma win_ratio_bounds (w t : Z) :
  0 ≤ w ≤ t → 0 < t → (0 <= inject_Z w / inject_Z t <= 1)%Q.
Proof.
  intros Hw Ht.
  assert (0 < inject_Z t)%Q as Htq by (change 0%Q with (inject_Z 0); by rewrite <- Zlt_Qlt).
  split.
  - apply Qle_shift_div_l; [done|]. rewrite Qmult_0_l.
    change 0%Q with (inject_Z 0). rewrite <- Zle_Qle. lia.
  - apply Qle_shift_div_r; [done|]. rewrite Qmult_1_l. rewrite <- Zle_Qle. lia.
Qed.

Lemma win_rate_of_bounds (w t : Z) :
  0 ≤ w ≤ t → (0 <= win_rate_of w t <= 100)%Q.
Proof.
  intros Hw. unfold win_rate_of. destruct (0 <? t) eqn:Ht; [|done].
  apply Z.ltb_lt in Ht. destruct (win_ratio_bounds w t Hw Ht) as [H0 H1].
  destruct (rnd53_between (inject_Z w / inject_Z t) 0 1) as [Hd0 Hd1]; try done.
  unfold float_mul, float_div. apply (rnd53_between _ 0 100); [done | done | |].
  - change (inject_Z 0) with (0 * 100)%Q. by apply Qmult_le_compat_r.
  - change (inject_Z 100) with (1 * 100)%Q. by apply Qmult_le_compat_r.
Qed.

(** C4. The statistics of a regime's closed positions: [total] is their
    number, [wins] the number of those with [pnl_usd > 0], [losses] is
    [total - wins], [win_rate] is [round(wins / total * 100, 1)] when
    [total > 0] and 0 when [total = 0].  The quotient and the product are
    rounded to binary64; rounding to one decimal takes the tenth nearest to
    the exact value of the product, the even one on a tie, and returns the
    float nearest to that decimal.  So [win_rate] lies in [0, 100]. *)
Theorem calculate_stats_spec (pos_list : list ClosedPosition) :
  total (calculate_stats pos_list) = Z.of_nat (length pos_list) ∧
  wins (calculate_stats pos_list)
    = Z.of_nat (length (filter (λ p, (0 < pnl_usd p)%Q) pos_list)) ∧
  losses (calculate_stats pos_list)
    = total (calculate_stats pos_list) - wins (calculate_stats pos_list) ∧
  win_rate (calculate_stats pos_list)
    = round1 (win_rate_of (wins (calculate_stats pos_list))
                          (total (calculate_stats pos_list))) ∧
  (0 < total (calculate_stats pos_list) →
   win_rate_of (wins (calculate_stats pos_list)) (total (calculate_stats pos_list))
     = rnd53 (rnd53 (inject_Z (wins (calculate_stats pos_list))
                     / inject_Z (total (calculate_stats pos_list))) * 100)) ∧
  (total (calculate_stats pos_list) = 0 →
   win_rate_of (wins (calculate_stats pos_list)) (total (calculate_stats pos_list))
     = 0%Q ∧
   (win_rate (calculate_stats pos_list) == 0)%Q) ∧
  (∃ n : Z,
     0 ≤ n ≤ 1000 ∧
     win_rate (calculate_stats pos_list) = rnd53 (inject_Z n / 10) ∧
     (inject_Z n - (1 # 2)
      <= win_rate_of (wins (calculate_stats pos_list))
                     (total (calculate_stats pos_list)) * 10)%Q ∧
     (win_rate_of (wins (calculate_stats pos_list))
                  (total (calculate_stats pos_list)) * 10
      <= inject_Z n + (1 # 2))%Q ∧
     ((win_rate_of (wins (calculate_stats pos_list))
                   (total (calculate_stats pos_list)) * 10
       == inject_Z n - (1 # 2))%Q ∨
      (win_rate_of (wins (calculate_stats pos_list))
                   (total (calculate_stats pos_list)) * 10
       == inject_Z n + (1 # 2))%Q →
      Z.even n = true)) ∧
  (0 <= win_rate (calculate_stats pos_list) <= 100)%Q.
Proof.
  pose proof (wins_le_total pos_list) as Hle.
  unfold calculate_stats. cbn [total wins losses win_rate].
  set (t := Z.of_nat (length pos_list)).
  set (w := Z.of_nat (length (filter (λ p, (0 < pnl_usd p)%Q) pos_list))).
  assert (0 ≤ w ≤ t) as Hw by (unfold w, t; lia).
  destruct (win_rate_of_bounds w t Hw) as [Hr0 Hr100].
  do 4 (split; [done|]). split; [|split; [|split]].
  - intros Ht. unfold win_rate_of. by rewrite (proj2 (Z.ltb_lt _ _) Ht).
  - intros Ht. unfold win_rate_of. rewrite Ht. split; [done | by vm_compute].
  - exists (round_half_even (win_rate_of w t * 10)).
    destruct (round_half_even_nearest (win_rate_of w t * 10)) as (Hn1 & Hn2 & Hn3).
    split; [|done].
    apply round_half_even_bounds.
    + change (inject_Z 0) with (0 * 10)%Q. by apply Qmult_le_compat_r.
    + change (inject_Z 1000) with (100 * 10)%Q. by apply Qmult_le_compat_r.
  - by apply round1_bounds.
Qed.

Lemma calculate_stats_spec_witness :
  0 < total (calculate_stats scenario_c) ∧
  win_rate_of (wins (calculate_stats scenario_c)) (total (calculate_stats scenario_c))
    = rnd53 (rnd53 (inject_Z (wins (calculate_stats scenario_c))
                    / inject_Z (total (calculate_stats scenario_c))) * 100).
Proof.
  split; [reflexivity|].
  apply (calculate_stats_spec scenario_c). reflexivity.
Defined.

Lemma filter_split_perm {A} (P : A → Prop) `{∀ x, Decision (P x)} (l : list A) :
  filter P l ++ filter (λ x, ¬ P x) l ≡ₚ l.
Proof.
  induction l as [|x l IH]; [done|].
  rewrite !filter_cons. destruct (decide (P x)) as [HP|HP].
  - rewrite decide_False by tauto. simpl. by f_equiv.
  - rewrite decide_True by done. rewrite <- Permutation_middle. by f_equiv.
Qed.

Lemma archive_positions_alt (positions : list ClosedPosition) :
  archive_positions positions
  = filter (λ p, ¬ split_date ≤ date (opened_at p)) positions.
Proof. unfold archive_positions. apply list_filter_iff. intros p. lia. Qed.

(** C10. The regime of a closed position is decided by the calendar date
    of its [opened_at] alone: it is in the current regime exactly when that
    date is on or after 2025-12-05 and in the archive regime otherwise, the
    two regimes partition the list, and replacing the [closed_at] of the
    positions, by anything, changes neither regime's membership. *)
Theorem regime_split_by_opened_at (positions : list ClosedPosition) :
  split_date = 739590 ∧
  (∀ p, p ∈ current_positions positions
        ↔ p ∈ positions ∧ split_date ≤ date (opened_at p)) ∧
  (∀ p, p ∈ archive_positions positions
        ↔ p ∈ positions ∧ ¬ split_date ≤ date (opened_at p)) ∧
  current_positions positions ++ archive_positions positions ≡ₚ positions ∧
  (∀ f : ClosedPosition → datetime,
     current_positions ((λ p, with_closed_at (f p) p) <$> positions)
       = (λ p, with_closed_at (f p) p) <$> current_positions positions ∧
     archive_positions ((λ p, with_closed_at (f p) p) <$> positions)
       = (λ p, with_closed_at (f p) p) <$> archive_positions positions).
Proof.
  split; [reflexivity|]. split; [|split; [|split]].
  - intros p. unfold current_positions. rewrite list_elem_of_filter. tauto.
  - intros p. rewrite archive_positions_alt, list_elem_of_filter. tauto.
  - rewrite archive_positions_alt. apply filter_split_perm.
  - intros f. unfold current_positions, archive_positions.
    induction positions as [|p l [IHc IHa]]; [done|].
    rewrite fmap_cons, !filter_cons. simpl.
    rewrite IHc, IHa. split; case_decide; done.
Qed.

(** ** Balance PnL *)


(** C5, as stated, fails on the empty balance series: no point is in the
    current regime, yet the current statistics are absent instead of
    reporting the override. *)
Lemma current_stats_no_points_counterexample :
  current_points [] = [] ∧
  current_stats (ui_pnl_stats [])
    ≠ Some {| initial_balance := initial_balance_new;
              current_balance := initial_balance_new;
              stats_pnl_usd := 0; pnl_percent := 0 |}.
Proof. split; [reflexivity | discriminate]. Qed.

(** C5, amended. For every balance series with at least one point, the
    current statistics start from the constant 1032 and end at the balance
    of the last point on or after the split date, or at 1032 when there is
    no such point; [pnl_usd] is their difference and [pnl_percent] is
    [pnl_usd / 1032 * 100]; with no point in the current regime they are
    1032, 1032, 0 and 0.  For the empty balance series there are no
    current statistics and [has_data] is false. *)
Theorem current_stats_spec (points : list BalancePoint) :
  (points = [] →
   current_stats (ui_pnl_stats points) = None ∧
   has_data (ui_pnl_stats points) = false) ∧
  (points ≠ [] →
   ∃ st, current_stats (ui_pnl_stats points) = Some st ∧
     initial_balance st = initial_balance_new ∧
     initial_balance_new = 1032%Q ∧
     current_balance st
       = balance_last initial_balance_new (current_points points) ∧
     (stats_pnl_usd st == current_balance st - initial_balance st)%Q ∧
     (pnl_percent st == stats_pnl_usd st / initial_balance st * 100)%Q ∧
     (current_points points = [] →
      st = {| initial_balance := 1032; current_balance := 1032;
              stats_pnl_usd := 0; pnl_percent := 0 |})).
Proof.
  split; [by intros ->|].
  intros Hne. destruct points as [|p0 points]; [done|].
  unfold ui_pnl_stats, current_stats, compute_current_stats.
  destruct (current_points (p0 :: points)) as [|c cs] eqn:Hc.
  - eexists. split; [reflexivity|]. simpl. by split_and!.
  - eexists. split; [reflexivity|]. simpl. split_and!; try done.
Qed.

Lemma current_stats_spec_witness :
  scenario_b ≠ [] ∧
  ∃ st, current_stats (ui_pnl_stats scenario_b) = Some st ∧
    initial_balance st = initial_balance_new ∧
    initial_balance_new = 1032%Q ∧
    current_balance st
      = balance_last initial_balance_new (current_points scenario_b) ∧
    (stats_pnl_usd st == current_balance st - initial_balance st)%Q ∧
    (pnl_percent st == stats_pnl_usd st / initial_balance st * 100)%Q ∧
    (current_points scenario_b = [] →
     st = {| initial_balance := 1032; current_balance := 1032;
             stats_pnl_usd := 0; pnl_percent := 0 |}).
Proof.
  split; [discriminate|]. apply (current_stats_spec scenario_b). discriminate.
Defined.

(** ** Position keys *)

Lemma append_length (s1 s2 : string) :
  String.length (s1 +:+ s2) = (String.length s1 + String.length s2)%nat.
Proof. induction s1 as [|c s1 IH]; simpl; [done | by rewrite IH]. Qed.

Lemma append_inv_tail (s1 s2 x : string) : s1 +:+ x = s2 +:+ x → s1 = s2.
Proof.
  revert s2. induction s1 as [|c1 s1 IH]; intros [|c2 s2] Heq; [done| | |].
  - apply (f_equal String.length) in Heq.
    rewrite !append_length in Heq. simpl in Heq. lia.
  - apply (f_equal String.length) in Heq.
    rewrite !append_length in Heq. simpl in Heq. lia.
  - simpl in Heq. injection Heq as -> Heq. f_equal. by apply IH.
Qed.

Lemma long_short_tails_differ (s1 s2 : string) : s1 +:+ "_long" ≠ s2 +:+ "_short".
Proof.
  revert s2. induction s1 as [|c1 s1 IH]; intros [|c2 s2] Heq.
  - done.
  - apply (f_equal String.length) in Heq.
    rewrite !append_length in Heq. simpl in Heq. lia.
  - simpl in Heq. injection Heq as -> Heq.
    destruct s1 as [|c s1]; [done|].
    apply (f_equal String.length) in Heq.
    rewrite !append_length in Heq. simpl in Heq. lia.
  - simpl in Heq. injection Heq as -> Heq. by apply (IH s2).
Qed.

(** The string key stands for the pair of symbol and side: for the two
    sides of the data model, equal keys are equal symbols and equal sides. *)
Lemma pos_key_inj (sym1 sd1 sym2 sd2 : string) :
  sd1 ∈ ["long"; "short"] → sd2 ∈ ["long"; "short"] →
  pos_key sym1 sd1 = pos_key sym2 sd2 → sym1 = sym2 ∧ sd1 = sd2.
Proof.
  unfold pos_key. intros H1 H2 Heq.
  apply elem_of_cons in H1 as [->|H1]; [|apply list_elem_of_singleton in H1 as ->];
    (apply elem_of_cons in H2 as [->|H2]; [|apply list_elem_of_singleton in H2 as ->]).
  - split; [|done]. by apply (append_inv_tail _ _ "_long").
  - by apply long_short_tails_differ in Heq.
  - symmetry in Heq. by apply long_short_tails_differ in Heq.
  - split; [|done]. by apply (append_inv_tail _ _ "_short").
Qed.

(** ** Dictionaries *)

Section dict_facts.
Context {K V : Type} `{EqDecision K}.
Implicit Types (k : K) (v : V) (d : list (K * V)).

Lemma dict_get_Some_elem k v d : dict_get k d = Some v → (k, v) ∈ d.
Proof.
  induction d as [|[k' v'] d IH]; simpl; [done|].
  case_decide as Hk; intros Hg.
  - injection Hg as ->. subst. left.
  - right. by apply IH.
Qed.

Lemma dict_get_None k d : dict_get k d = None ↔ k ∉ d.*1.
Proof.
  induction d as [|[k' v'] d IH]; simpl.
  - split; [intros _; apply not_elem_of_nil | done].
  - rewrite not_elem_of_cons. case_decide; [|tauto].
    split; [done | tauto].
Qed.

Lemma dict_mem_true k d : dict_mem k d = true ↔ k ∈ d.*1.
Proof.
  unfold dict_mem. destruct (dict_get k d) eqn:Hg.
  - split; [intros _ | done].
    apply dict_get_Some_elem in Hg. apply list_elem_of_fmap. by exists (k, v).
  - apply dict_get_None in Hg. split; [done | tauto].
Qed.

Lemma dict_mem_false k d : dict_mem k d = false ↔ k ∉ d.*1.
Proof. rewrite <- dict_mem_true. destruct (dict_mem k d); naive_solver. Qed.

Lemma dict_get_elem k v d : NoDup d.*1 → (k, v) ∈ d → dict_get k d = Some v.
Proof.
  induction d as [|[k' v'] d IH]; simpl; intros Hnd Hin.
  - by apply elem_of_nil in Hin.
  - apply NoDup_cons in Hnd as [Hk' Hnd].
    apply elem_of_cons in Hin as [Heq|Hin].
    + injection Heq as -> ->. by rewrite decide_True.
    + rewrite decide_False; [by apply IH|].
      intros ->. apply Hk'. apply list_elem_of_fmap. by exists (k', v).
Qed.

Lemma dict_set_keys k v d :
  (dict_set k v d).*1 = if decide (k ∈ d.*1) then d.*1 else d.*1 ++ [k].
Proof.
  induction d as [|[k' v'] d IH].
  - rewrite decide_False; [done | apply not_elem_of_nil].
  - cbn [dict_set]. destruct (decide (k = k')) as [->|Hk].
    + rewrite !fmap_cons. cbn [fst].
      rewrite decide_True; [done | apply elem_of_cons; by left].
    + rewrite !fmap_cons, IH. cbn [fst].
      destruct (decide (k ∈ d.*1)) as [Hin|Hin].
      * rewrite decide_True; [done | by right].
      * rewrite decide_False; [done|]. rewrite not_elem_of_cons. tauto.
Qed.

Lemma dict_set_NoDup k v d : NoDup d.*1 → NoDup (dict_set k v d).*1.
Proof.
  intros Hnd. rewrite dict_set_keys. case_decide as Hin; [done|].
  apply NoDup_app. split_and!; [done | | apply NoDup_singleton].
  intros x Hx Hx'. apply list_elem_of_singleton in Hx'. by subst.
Qed.

Lemma dict_set_elem k v d kv : kv ∈ dict_set k v d → kv = (k, v) ∨ kv ∈ d.
Proof.
  induction d as [|[k' v'] d IH]; simpl.
  - intros Hin. apply list_elem_of_singleton in Hin. by left.
  - case_decide; rewrite !elem_of_cons; naive_solver.
Qed.

Lemma dict_set_ne_nil k v d : dict_set k v d ≠ [].
Proof. destruct d as [|[k' v'] d]; simpl; [done|]. by case_decide. Qed.

Lemma dict_alter_keys f k d : (dict_alter f k d).*1 = d.*1.
Proof.
  induction d as [|[k' v'] d IH]; [done|].
  cbn [dict_alter]. destruct (decide (k = k')); rewrite !fmap_cons; [done|].
  by rewrite IH.
Qed.

Lemma dict_alter_elem f k d k' v' :
  (k', v') ∈ dict_alter f k d →
  (k' ≠ k ∧ (k', v') ∈ d) ∨ (k' = k ∧ ∃ v0, (k, v0) ∈ d ∧ v' = f v0) ∨
  ((k', v') ∈ d ∧ k ∈ d.*1 ∧ ¬ NoDup d.*1).
Proof.
  induction d as [|[k1 v1] d IH]; simpl.
  - intros Hin. by apply elem_of_nil in Hin.
  - case_decide as Hk.
    + subst k1. rewrite elem_of_cons. intros [Heq|Hin].
      * injection Heq as -> ->. right. left. split; [done|]. exists v1. split; [left|done].
      * destruct (decide (k' = k)) as [->|Hne].
        -- right. right. split; [by right|]. split; [left|].
           rewrite ?fmap_cons, NoDup_cons. intros [Hk _]. apply Hk.
           apply list_elem_of_fmap. by exists (k, v').
        -- left. split; [done | by right].
    + rewrite elem_of_cons. intros [Heq|Hin].
      * injection Heq as -> ->. left. split; [done | left].
      * destruct (IH Hin) as [[? ?]|[[-> (v0 & ? & ?)]|(? & ? & Hnd)]].
        -- left. split; [done | by right].
        -- right. left. split; [done|]. exists v0. split; [by right | done].
        -- right. right. split; [by right|]. split; [by right|].
           rewrite ?fmap_cons, NoDup_cons. tauto.
Qed.

Lemma dict_alter_elem_NoDup f k d k' v' :
  NoDup d.*1 → (k', v') ∈ dict_alter f k d →
  (k' ≠ k ∧ (k', v') ∈ d) ∨ (k' = k ∧ ∃ v0, (k, v0) ∈ d ∧ v' = f v0).
Proof. intros Hnd Hin. destruct (dict_alter_elem _ _ _ _ _ Hin); naive_solver. Qed.
End dict_facts.

(** ** The stable sort *)

Section sorted_facts.
Context {A : Type} (key : A → Z).
Implicit Types (x : A) (l : list A).

Lemma insert_sorted_perm x l : insert_sorted key x l ≡ₚ x :: l.
Proof.
  induction l as [|y l IH]; simpl; [done|].
  case_match; [done|]. rewrite IH. apply Permutation_swap.
Qed.

Lemma sorted_perm l : sorted key l ≡ₚ l.
Proof.
  induction l as [|x l IH]; simpl; [done|].
  by rewrite insert_sorted_perm, IH.
Qed.

Lemma insert_sorted_Sorted x l :
  Sorted (λ a b, key a ≤ key b) l →
  Sorted (λ a b, key a ≤ key b) (insert_sorted key x l).
Proof.
  induction l as [|y l IH]; simpl; intros Hs.
  - by repeat constructor.
  - destruct (key x <=? key y) eqn:Hle.
    + apply Z.leb_le in Hle. constructor; [done|]. by constructor.
    + apply Z.leb_gt in Hle. apply Sorted_inv in Hs as [Hs Hhd].
      constructor; [by apply IH|].
      destruct l as [|z l]; simpl.
      * constructor. lia.
      * destruct (key x <=? key z); constructor; [lia|].
        by apply HdRel_inv in Hhd.
Qed.

Lemma sorted_Sorted l : Sorted (λ a b, key a ≤ key b) (sorted key l).
Proof.
  induction l as [|x l IH]; simpl; [constructor|].
  by apply insert_sorted_Sorted.
Qed.

Lemma insert_sorted_stable (t : Z) x l :
  filter (λ a, key a = t) (insert_sorted key x l)
  = filter (λ a, key a = t) (x :: l).
Proof.
  induction l as [|y l IH]; simpl; [done|].
  destruct (key x <=? key y) eqn:Hle; [done|].
  apply Z.leb_gt in Hle.
  rewrite filter_cons, IH, !filter_cons.
  repeat case_decide; try done; lia.
Qed.

Lemma sorted_stable (t : Z) l :
  filter (λ a, key a = t) (sorted key l) = filter (λ a, key a = t) l.
Proof.
  induction l as [|x l IH]; simpl; [done|].
  by rewrite insert_sorted_stable, !filter_cons, IH.
Qed.

End sorted_facts.

(** ** Grouping the rows by snapshot *)

Lemma first_seen_elem (x : Z) (ids : list Z) : x ∈ first_seen ids ↔ x ∈ ids.
Proof.
  induction ids as [|y ids IH]; simpl; [done|].
  rewrite !elem_of_cons, list_elem_of_filter, IH.
  destruct (decide (x = y)); naive_solver.
Qed.

Lemma first_seen_NoDup (ids : list Z) : NoDup (first_seen ids).
Proof.
  induction ids as [|y ids IH]; simpl; [constructor|].
  apply NoDup_cons. split; [|by apply NoDup_filter].
  rewrite list_elem_of_filter. naive_solver.
Qed.

Lemma first_seen_snoc (ids : list Z) (x : Z) :
  first_seen (ids ++ [x])
  = if decide (x ∈ ids) then first_seen ids else first_seen ids ++ [x].
Proof.
  induction ids as [|y ids IH].
  - rewrite decide_False; [done | apply not_elem_of_nil].
  - cbn [app first_seen]. rewrite IH. destruct (decide (x ∈ ids)) as [Hin|Hin].
    + rewrite decide_True; [done | by right].
    + destruct (decide (x = y)) as [->|Hne].
      * rewrite decide_True by left. rewrite filter_app, filter_cons.
        rewrite decide_False by naive_solver. by rewrite filter_nil, app_nil_r.
      * rewrite decide_False by (rewrite elem_of_cons; naive_solver).
        rewrite filter_app, filter_cons, decide_True by done. done.
  Qed.

Lemma filter_none {A} (P : A → Prop) `{∀ x, Decision (P x)} (l : list A) :
  (∀ x, x ∈ l → ¬ P x) → filter P l = [].
Proof.
  induction l as [|x l IH]; intros Hall; [done|].
  rewrite filter_cons, decide_False by (apply Hall; left).
  apply IH. intros y Hy. apply Hall. by right.
Qed.

Lemma fmap_snoc {A B} (f : A → B) (l : list A) (x : A) :
  f <$> (l ++ [x]) = (f <$> l) ++ [f x].
Proof. by rewrite fmap_app. Qed.

Lemma first_row_snoc_Some (id : Z) (rows : list Row) (row row0 : Row) :
  first_row id rows = Some row0 → first_row id (rows ++ [row]) = Some row0.
Proof.
  unfold first_row. rewrite filter_app.
  destruct (filter _ rows); [done|]. done.
Qed.

Lemma first_row_snoc_new (rows : list Row) (row : Row) :
  row_snap_id row ∉ row_snap_id <$> rows →
  first_row (row_snap_id row) (rows ++ [row]) = Some row.
Proof.
  intros Hnew. unfold first_row. rewrite filter_app.
  replace (filter (λ r, row_snap_id r = row_snap_id row) rows) with (@nil Row).
  - rewrite filter_cons, decide_True by done. done.
  - symmetry. apply filter_none. intros r Hr Heq.
    apply Hnew. apply list_elem_of_fmap. by exists r.
Qed.

Lemma wf_positions_set (row : Row) (d : list (string * PosData)) :
  wf_positions d →
  wf_positions (dict_set (pos_key (row_symbol row) (row_side row))
                         (pos_data_of_row row) d).
Proof.
  intros [Hnd Hkeys]. split; [by apply dict_set_NoDup|].
  intros k pd Hin. apply dict_set_elem in Hin as [Heq|Hin]; [|by apply Hkeys].
  by injection Heq as -> ->.
Qed.

Lemma add_row_inv (rows : list Row) (m : list (Z * Snapshot)) (row : Row) :
  build_inv rows m → build_inv (rows ++ [row]) (add_row m row).
Proof.
  intros [Hkeys Hwf Hrows Htime].
  assert (NoDup m.*1) as Hnd by (rewrite Hkeys; apply first_seen_NoDup).
  unfold add_row.
  set (f := λ snap : Snapshot, {| created_at := created_at snap; positions := _ |}).
  destruct (dict_mem (row_snap_id row) m) eqn:Hmem.
  - (* the snapshot is known *)
    apply dict_mem_true in Hmem.
    assert (row_snap_id row ∈ row_snap_id <$> rows) as Hold
      by (by rewrite <- first_seen_elem, <- Hkeys).
    split.
    + rewrite dict_alter_keys, fmap_snoc, first_seen_snoc.
      by rewrite decide_True.
    + intros id snap Hin.
      apply dict_alter_elem_NoDup in Hin; [|done].
      destruct Hin as [[Hne Hin]|[-> (s0 & Hin & ->)]]; [by eauto|].
      destruct (Hwf _ _ Hin) as [Hw _]. split.
      * by apply wf_positions_set.
      * apply dict_set_ne_nil.
    + intros id snap k pd Hin Hpd.
      apply dict_alter_elem_NoDup in Hin; [|done].
      destruct Hin as [[Hne Hin]|[-> (s0 & Hin & ->)]].
      * destruct (Hrows _ _ _ _ Hin Hpd) as (r0 & ? & ?).
        exists r0. split; [apply elem_of_app; by left | done].
      * apply dict_set_elem in Hpd as [Heq|Hpd].
        -- injection Heq as -> ->. exists row.
           split; [apply elem_of_app; right; apply list_elem_of_singleton; done|done].
        -- destruct (Hrows _ _ _ _ Hin Hpd) as (r0 & ? & ?).
           exists r0. split; [apply elem_of_app; by left | done].
    + intros id snap Hin.
      apply dict_alter_elem_NoDup in Hin; [|done].
      destruct Hin as [[Hne Hin]|[-> (s0 & Hin & ->)]].
      * destruct (Htime _ _ Hin) as (r0 & Hf & ?).
        exists r0. split; [by apply first_row_snoc_Some | done].
      * destruct (Htime _ _ Hin) as (r0 & Hf & ?).
        exists r0. split; [by apply first_row_snoc_Some | done].
  - (* a new snapshot *)
    apply dict_mem_false in Hmem.
    assert (row_snap_id row ∉ row_snap_id <$> rows) as Hnew
      by (by rewrite <- first_seen_elem, <- Hkeys).
    set (s0 := {| created_at := row_created_at row; positions := [] |}).
    assert (NoDup (dict_set (row_snap_id row) s0 m).*1) as Hnd1
      by (by apply dict_set_NoDup).
    assert (∀ id snap, (id, snap) ∈ dict_alter f (row_snap_id row)
                                     (dict_set (row_snap_id row) s0 m) →
            (id ≠ row_snap_id row ∧ (id, snap) ∈ m) ∨
            (id = row_snap_id row ∧ snap = f s0)) as Hcases.
    { intros id snap Hin.
      apply dict_alter_elem_NoDup in Hin; [|done].
      destruct Hin as [[Hne Hin]|[-> (s1 & Hin & ->)]].
      - apply dict_set_elem in Hin as [Heq|Hin]; [congruence | by left].
      - right. split; [done|].
        apply dict_set_elem in Hin as [Heq|Hin]; [congruence|].
        exfalso. apply Hmem. apply list_elem_of_fmap. by exists (row_snap_id row, s1). }
    split.
    + rewrite dict_alter_keys, dict_set_keys, decide_False by done.
      rewrite fmap_snoc, first_seen_snoc, decide_False by done.
      by rewrite Hkeys.
    + intros id snap Hin. destruct (Hcases _ _ Hin) as [[_ Hm]|[-> ->]]; [by eauto|].
      split; [|apply dict_set_ne_nil].
      apply wf_positions_set. split; [constructor|].
      intros k pd Hk. by apply elem_of_nil in Hk.
    + intros id snap k pd Hin Hpd.
      destruct (Hcases _ _ Hin) as [[_ Hm]|[-> ->]].
      * destruct (Hrows _ _ _ _ Hm Hpd) as (r0 & ? & ?).
        exists r0. split; [apply elem_of_app; by left | done].
      * simpl in Hpd. apply list_elem_of_singleton in Hpd. injection Hpd as -> ->.
        exists row.
        split; [apply elem_of_app; right; apply list_elem_of_singleton; done|done].
    + intros id snap Hin. destruct (Hcases _ _ Hin) as [[_ Hm]|[-> ->]].
      * destruct (Htime _ _ Hm) as (r0 & Hf & ?).
        exists r0. split; [by apply first_row_snoc_Some | done].
      * exists row. split; [by apply first_row_snoc_new | done].
Qed.

Lemma build_snapshots_map_inv (rows : list Row) :
  build_inv rows (build_snapshots_map rows).
Proof.
  unfold build_snapshots_map.
  induction rows as [|row rows IH] using rev_ind.
  - split; simpl; [done | | | ].
    + intros ? ? Hin. by apply elem_of_nil in Hin.
    + intros ? ? ? ? Hin. by apply elem_of_nil in Hin.
    + intros ? ? Hin. by apply elem_of_nil in Hin.
  - rewrite fold_left_app. simpl. by apply add_row_inv.
Qed.

(** ** The main loop: one iteration *)

Lemma register_starts_lookup (ct : datetime) (d : list (string * PosData))
    (pst : gmap string datetime) (k : string) :
  register_starts ct d pst !! k
  = match pst !! k with
    | Some t => Some t
    | None => if decide (k ∈ d.*1) then Some ct else None
    end.
Proof.
  unfold register_starts. revert pst.
  induction d as [|[k' pd] d IH]; intros pst.
  - cbn [fold_left]. destruct (pst !! k); [done|].
    rewrite decide_False; [done | apply not_elem_of_nil].
  - cbn [fold_left]. rewrite IH. unfold register_start. cbn [fst].
    rewrite fmap_cons. cbn [fst].
    destruct (decide (k = k')) as [->|Hne].
    + destruct (pst !! k') as [t|] eqn:Hk.
      * by rewrite Hk.
      * rewrite lookup_insert_eq. rewrite decide_True; [done | left].
    + destruct (pst !! k') as [t|] eqn:Hk'.
      * destruct (pst !! k); [done|].
        destruct (decide (k ∈ d.*1)) as [Hin|Hin].
        -- rewrite decide_True; [done | by right].
        -- rewrite decide_False; [done|]. rewrite not_elem_of_cons. tauto.
      * rewrite lookup_insert_ne by done.
        destruct (pst !! k); [done|].
        destruct (decide (k ∈ d.*1)) as [Hin|Hin].
        -- rewrite decide_True; [done | by right].
        -- rewrite decide_False; [done|]. rewrite not_elem_of_cons. tauto.
Qed.

Lemma close_fold_lookup (next : list (string * PosData)) (ct nt : datetime)
    (d : list (string * PosData)) (st : TrackState) (k : string) :
  position_start_times (fold_left (close_if_absent next ct nt) d st) !! k
  = if decide (k ∈ d.*1 ∧ dict_mem k next = false) then None
    else position_start_times st !! k.
Proof.
  revert st. induction d as [|[k' pd] d IH]; intros st.
  - cbn [fold_left]. rewrite decide_False; [done|].
    intros [H0 _]. by apply elem_of_nil in H0.
  - cbn [fold_left]. rewrite IH. unfold close_if_absent. cbn [fst snd].
    rewrite fmap_cons. cbn [fst].
    destruct (decide (k ∈ d.*1 ∧ dict_mem k next = false)) as [[Hin Hm]|Hn].
    + rewrite decide_True; [done|]. split; [by right | done].
    + destruct (decide (k = k')) as [->|Hne].
      * destruct (dict_mem k' next) eqn:Hm.
        -- rewrite decide_False; [done|]. intros [_ ?]. done.
        -- cbn [position_start_times]. rewrite lookup_delete_eq.
           rewrite decide_True; [done|]. split; [left | done].
      * assert (position_start_times
                  (if dict_mem k' next then st
                   else {| position_start_times := delete k' (position_start_times st);
                           closed_positions := closed_positions st ++
                             [closed_of pd (default ct (position_start_times st !! k')) nt] |})
                  !! k = position_start_times st !! k) as Heq.
        { destruct (dict_mem k' next); [done|].
          cbn [position_start_times]. by rewrite lookup_delete_ne. }
        unfold closed_of in Heq. rewrite Heq.
        rewrite decide_False; [done|]. rewrite elem_of_cons. tauto.
Qed.

Lemma close_fold_closed (next : Snapshot) (curr : Snapshot)
    (d : list (string * PosData)) (st : TrackState) (pst0 : gmap string datetime) :
  NoDup d.*1 →
  (∀ k, k ∈ d.*1 → position_start_times st !! k = pst0 !! k) →
  closed_positions
    (fold_left (close_if_absent (positions next) (created_at curr) (created_at next)) d st)
  = closed_positions st
    ++ closures pst0 {| created_at := created_at curr; positions := d |} next.
Proof.
  unfold closures. cbn [positions created_at].
  revert st. induction d as [|[k pd] d IH]; intros st Hnd Hpst.
  - simpl. by rewrite app_nil_r.
  - rewrite fmap_cons in Hnd. cbn [fst] in Hnd. apply NoDup_cons in Hnd as [Hk Hnd].
    cbn [fold_left omap list_omap]. rewrite IH; [|done|].
    + unfold close_if_absent. cbn [fst snd].
      destruct (dict_mem k (positions next)); [done|].
      cbn [closed_positions]. rewrite <- app_assoc. f_equal. simpl.
      rewrite (Hpst k); [done|]. rewrite fmap_cons. left.
    + intros k' Hk'. rewrite <- (Hpst k') by (rewrite fmap_cons; by right).
      unfold close_if_absent. cbn [fst snd].
      destruct (dict_mem k (positions next)); [done|].
      cbn [position_start_times]. rewrite lookup_delete_ne; [done|].
      intros ->. done.
Qed.

Lemma closures_filter_key (pst : gmap string datetime) (curr next : Snapshot)
    (k : string) :
  wf_snapshot curr →
  filter (λ cp, cp_key cp = k) (closures pst curr next)
  = match dict_get k (positions curr) with
    | Some pd =>
        if dict_mem k (positions next) then []
        else [closed_of pd (default (created_at curr) (pst !! k)) (created_at next)]
    | None => []
    end.
Proof.
  unfold wf_snapshot, closures.
  generalize (created_at curr) as ct. generalize (positions curr) as d.
  intros d ct [Hnd Hkeys].
  induction d as [|[k' pd] d IH]; [done|].
  rewrite fmap_cons in Hnd. cbn [fst] in Hnd. apply NoDup_cons in Hnd as [Hk' Hnd].
  assert (k' = pos_key (pd_symbol pd) (pd_side pd)) as Hkey by (apply Hkeys; left).
  assert (∀ k0 pd0, (k0, pd0) ∈ d → k0 = pos_key (pd_symbol pd0) (pd_side pd0)) as Hkeys'.
  { intros k0 pd0 Hin. apply Hkeys. by right. }
  specialize (IH Hnd Hkeys').
  cbn [omap list_omap dict_get fst snd].
  destruct (decide (k = k')) as [->|Hne].
  - assert (filter (λ cp, cp_key cp = k')
              (omap (λ item : string * PosData,
                 if dict_mem item.1 (positions next) then None
                 else Some (closed_of item.2 (default ct (pst !! item.1)) (created_at next))) d)
            = []) as Hrest.
    { rewrite IH. destruct (dict_get k' d) eqn:Hg; [|done].
      apply dict_get_Some_elem in Hg. exfalso. apply Hk'.
      apply list_elem_of_fmap. by exists (k', p). }
    destruct (dict_mem k' (positions next)); [done|].
    rewrite filter_cons, decide_True by (unfold cp_key; by simpl).
    by rewrite Hrest.
  - destruct (dict_mem k' (positions next)); [done|].
    rewrite filter_cons, decide_False; [done|].
    unfold cp_key. simpl. congruence.
Qed.

Lemma iteration_closed_None (curr : Snapshot) (st : TrackState) :
  closed_positions (iteration curr None st) = closed_positions st.
Proof. done. Qed.

Lemma iteration_closed_Some (curr next : Snapshot) (st : TrackState) :
  wf_snapshot curr →
  closed_positions (iteration curr (Some next) st)
  = closed_positions st
    ++ closures (register_starts (created_at curr) (positions curr)
                   (position_start_times st)) curr next.
Proof.
  intros [Hnd _]. unfold iteration. destruct curr as [ct d]. cbn [created_at positions] in *.
  by rewrite (close_fold_closed next (mkSnapshot ct d) d _ (register_starts ct d (position_start_times st))).
Qed.

Lemma dict_get_is_Some {V} (k : string) (d : list (string * V)) :
  k ∈ d.*1 ↔ is_Some (dict_get k d).
Proof.
  rewrite <- dict_mem_true. unfold dict_mem.
  destruct (dict_get k d).
  - split; [by eauto | done].
  - split; [done | by intros [? ?]].
Qed.

Lemma registered_default (curr : Snapshot) (pst : gmap string datetime) (k : string) :
  k ∈ (positions curr).*1 →
  register_starts (created_at curr) (positions curr) pst !! k
  = Some (default (created_at curr) (pst !! k)).
Proof.
  intros Hin. rewrite register_starts_lookup.
  destruct (pst !! k); [done|]. by rewrite decide_True.
Qed.

(** The effect of one iteration on what the state holds for a key [k]. *)
Lemma iteration_lookup (k : string) (curr : Snapshot) (next : option Snapshot)
    (st : TrackState) :
  position_start_times (iteration curr next st) !! k
  = match dict_get k (positions curr) with
    | None => position_start_times st !! k
    | Some _ =>
        match next with
        | Some nx =>
            if dict_mem k (positions nx) then
              Some (default (created_at curr) (position_start_times st !! k))
            else None
        | None => Some (default (created_at curr) (position_start_times st !! k))
        end
    end.
Proof.
  unfold iteration.
  destruct (dict_get k (positions curr)) as [pd|] eqn:Hg.
  - assert (k ∈ (positions curr).*1) as Hin by (apply dict_get_is_Some; eauto).
    destruct next as [nx|]; cbn [position_start_times].
    + rewrite close_fold_lookup. cbn [position_start_times].
      destruct (dict_mem k (positions nx)) eqn:Hm.
      * rewrite decide_False by (intros [_ ?]; done). by apply registered_default.
      * by rewrite decide_True.
    + by apply registered_default.
  - apply dict_get_None in Hg.
    assert (register_starts (created_at curr) (positions curr)
              (position_start_times st) !! k = position_start_times st !! k) as Hreg.
    { rewrite register_starts_lookup. destruct (_ !! k); [done|]. by rewrite decide_False. }
    destruct next as [nx|]; cbn [position_start_times]; [|done].
    rewrite close_fold_lookup. cbn [position_start_times].
    rewrite decide_False by tauto. done.
Qed.

Lemma iteration_closed_key (k : string) (curr : Snapshot) (next : option Snapshot)
    (st : TrackState) :
  wf_snapshot curr →
  filter (λ cp, cp_key cp = k) (closed_positions (iteration curr next st))
  = filter (λ cp, cp_key cp = k) (closed_positions st)
    ++ match dict_get k (positions curr), next with
       | Some pd, Some nx =>
           if dict_mem k (positions nx) then []
           else [closed_of pd
                   (default (created_at curr) (position_start_times st !! k))
                   (created_at nx)]
       | _, _ => []
       end.
Proof.
  intros Hwf. destruct next as [nx|].
  - rewrite iteration_closed_Some, filter_app, closures_filter_key by done.
    f_equal. destruct (dict_get k (positions curr)) as [pd|] eqn:Hg; [|done].
    destruct (dict_mem k (positions nx)); [done|].
    rewrite registered_default; [done|]. apply dict_get_is_Some; eauto.
  - rewrite iteration_closed_None. destruct (dict_get k (positions curr)); by rewrite app_nil_r.
Qed.

(** ** The main loop: the whole pass *)

Lemma reconcile_steps_all (snaps : list Snapshot) (st : TrackState) (n : nat) :
  (length snaps ≤ n)%nat → reconcile_steps n snaps st = reconcile_from snaps st.
Proof.
  revert st n. induction snaps as [|curr rest IH]; intros st n Hn.
  - by destruct n.
  - destruct n as [|n]; simpl in Hn; [lia|]. simpl. apply IH. lia.
Qed.

Lemma reconcile_steps_add (n m : nat) (snaps : list Snapshot) (st : TrackState) :
  reconcile_steps (n + m) snaps st
  = reconcile_steps m (drop n snaps) (reconcile_steps n snaps st).
Proof.
  revert snaps st. induction n as [|n IH]; intros snaps st; [done|].
  destruct snaps as [|curr rest]; simpl.
  - by destruct m.
  - apply IH.
Qed.


Lemma iteration_closed_prefix (curr : Snapshot) (next : option Snapshot)
    (st : TrackState) :
  closed_positions st `prefix_of` closed_positions (iteration curr next st).
Proof.
  unfold iteration. destruct next as [nx|]; [|done].
  cbn [closed_positions].
  set (st1 := {| position_start_times := _; closed_positions := closed_positions st |}).
  change (closed_positions st) with (closed_positions st1) at 1.
  generalize st1. clear st1. induction (positions curr) as [|item d IH]; intros st1; [done|].
  cbn [fold_left]. etrans; [|apply IH].
  unfold close_if_absent. destruct (dict_mem _ _); [done|].
  cbn [closed_positions]. by apply prefix_app_r.
Qed.

Lemma reconcile_from_closed_prefix (snaps : list Snapshot) (st : TrackState) :
  closed_positions st `prefix_of` closed_positions (reconcile_from snaps st).
Proof.
  revert st. induction snaps as [|curr rest IH]; intros st; [done|].
  simpl. etrans; [apply iteration_closed_prefix | apply IH].
Qed.

Lemma reconcile_short (snaps : list Snapshot) :
  (length snaps ≤ 1)%nat → closed_positions (reconcile snaps) = [].
Proof.
  destruct snaps as [|s [|s' snaps]]; simpl; [done | done | lia].
Qed.



Lemma closures_elem (pst : gmap string datetime) (curr next : Snapshot)
    (cp : ClosedPosition) :
  wf_snapshot curr →
  cp ∈ closures pst curr next →
  ∃ pd, dict_get (cp_key cp) (positions curr) = Some pd ∧
        dict_mem (cp_key cp) (positions next) = false ∧
        cp = closed_of pd (opened_at cp) (created_at next).
Proof.
  intros [Hnd Hkeys]. unfold closures. rewrite list_elem_of_omap.
  intros ([k pd] & Hin & Hcp). cbn [fst snd] in Hcp.
  destruct (dict_mem k (positions next)) eqn:Hm; [done|].
  injection Hcp as <-.
  assert (k = pos_key (pd_symbol pd) (pd_side pd)) as Hk by by apply Hkeys.
  exists pd. unfold cp_key. simpl. rewrite <- Hk.
  split; [by apply dict_get_elem | done].
Qed.

(** Every closed position of the pass was either there before or comes from
    an adjacent pair in which its key disappears. *)
Lemma reconcile_from_origin (snaps : list Snapshot) (st : TrackState)
    (cp : ClosedPosition) :
  Forall wf_snapshot snaps →
  cp ∈ closed_positions (reconcile_from snaps st) →
  cp ∈ closed_positions st ∨
  ∃ (i : nat) (curr next : Snapshot) (pd : PosData),
    snaps !! i = Some curr ∧ snaps !! S i = Some next ∧
    dict_get (cp_key cp) (positions curr) = Some pd ∧
    dict_mem (cp_key cp) (positions next) = false ∧
    cp = closed_of pd (opened_at cp) (created_at next).
Proof.
  revert st. induction snaps as [|curr rest IH]; intros st Hwf Hin; [by left|].
  apply Forall_cons in Hwf as [Hc Hrest]. cbn [reconcile_from] in Hin.
  destruct (IH _ Hrest Hin) as [Hst|(i & c & n & pd & Hi & Hn & ?)].
  - destruct rest as [|next rest]; [by left|].
    cbn [head] in Hst. rewrite iteration_closed_Some in Hst by done.
    apply elem_of_app in Hst as [Hst|Hst]; [by left|]. right.
    destruct (closures_elem _ _ _ _ Hc Hst) as (pd & ? & ? & ?).
    by exists 0%nat, curr, next, pd.
  - right. by exists (S i), c, n, pd.
Qed.

Lemma reconcile_steps_S (i : nat) (snaps : list Snapshot) (st : TrackState)
    (curr : Snapshot) :
  snaps !! i = Some curr →
  reconcile_steps (S i) snaps st
  = iteration curr (snaps !! S i) (reconcile_steps i snaps st).
Proof.
  revert snaps st. induction i as [|i IH]; intros snaps st Hi.
  - destruct snaps as [|c rest]; [done|]. injection Hi as ->.
    cbn. by destruct rest.
  - destruct snaps as [|c rest]; [done|]. cbn in Hi.
    change (reconcile_steps (S (S i)) (c :: rest) st)
      with (reconcile_steps (S i) rest (iteration c (head rest) st)).
    rewrite (IH _ _ Hi). done.
Qed.


(** ** Runs of snapshots that hold, or lack, a key *)

Section runs.
Context (k : string).

Lemma present_run (A : list Snapshot) :
  ∀ (a : Snapshot) (rest : list Snapshot) (st : TrackState),
  Forall wf_snapshot (a :: A) → Forall (has_key k) (a :: A) →
  match head rest with Some n => has_key k n | None => True end →
  position_start_times (reconcile_steps (S (length A)) ((a :: A) ++ rest) st) !! k
    = Some (default (created_at a) (position_start_times st !! k)) ∧
  filter (λ cp, cp_key cp = k)
    (closed_positions (reconcile_steps (S (length A)) ((a :: A) ++ rest) st))
    = filter (λ cp, cp_key cp = k) (closed_positions st).
Proof.
  induction A as [|a' A IH]; intros a rest st Hwf Hhas Hnext.
  - apply Forall_cons in Hwf as [Hwa _]. apply Forall_cons in Hhas as [Hka _].
    cbn [length app reconcile_steps].
    rewrite iteration_lookup, iteration_closed_key by done.
    unfold has_key, dict_mem in Hka.
    destruct (dict_get k (positions a)) as [pd|]; [|done].
    destruct (head rest) as [n|]; [|by rewrite app_nil_r].
    unfold has_key in Hnext. rewrite Hnext. by rewrite app_nil_r.
  - apply Forall_cons in Hwf as [Hwa Hwf]. apply Forall_cons in Hhas as [Hka Hhas].
    change (reconcile_steps (S (length (a' :: A))) ((a :: a' :: A) ++ rest) st)
      with (reconcile_steps (S (length A)) ((a' :: A) ++ rest)
              (iteration a (Some a') st)).
    destruct (IH a' rest (iteration a (Some a') st) Hwf Hhas Hnext) as [-> ->].
    rewrite iteration_lookup, iteration_closed_key by done.
    unfold has_key, dict_mem in Hka.
    destruct (dict_get k (positions a)) as [pd|]; [|done].
    apply Forall_cons in Hhas as [Hka' _]. unfold has_key in Hka'.
    rewrite Hka'. by rewrite app_nil_r.
Qed.

Lemma closing_run (A : list Snapshot) :
  ∀ (a z n : Snapshot) (rest : list Snapshot) (st : TrackState) (pd : PosData),
  Forall wf_snapshot (a :: A) → Forall (has_key k) (a :: A) →
  last (a :: A) = Some z → dict_get k (positions z) = Some pd →
  ¬ has_key k n →
  position_start_times
    (reconcile_steps (S (length A)) ((a :: A) ++ n :: rest) st) !! k = None ∧
  filter (λ cp, cp_key cp = k)
    (closed_positions (reconcile_steps (S (length A)) ((a :: A) ++ n :: rest) st))
    = filter (λ cp, cp_key cp = k) (closed_positions st)
      ++ [closed_of pd (default (created_at a) (position_start_times st !! k))
            (created_at n)].
Proof.
  induction A as [|a' A IH]; intros a z n rest st pd Hwf Hhas Hlast Hpd Hn.
  - apply Forall_cons in Hwf as [Hwa _]. injection Hlast as ->.
    cbn [length app reconcile_steps head].
    rewrite iteration_lookup, iteration_closed_key by done.
    rewrite Hpd. unfold has_key in Hn. apply not_true_is_false in Hn.
    by rewrite Hn.
  - apply Forall_cons in Hwf as [Hwa Hwf]. apply Forall_cons in Hhas as [Hka Hhas].
    change (reconcile_steps (S (length (a' :: A))) ((a :: a' :: A) ++ n :: rest) st)
      with (reconcile_steps (S (length A)) ((a' :: A) ++ n :: rest)
              (iteration a (Some a') st)).
    rewrite last_cons_cons in Hlast.
    destruct (IH a' z n rest (iteration a (Some a') st) pd Hwf Hhas Hlast Hpd Hn)
      as [-> ->].
    split; [done|].
    rewrite iteration_lookup, iteration_closed_key by done.
    unfold has_key, dict_mem in Hka.
    destruct (dict_get k (positions a)) as [pd0|]; [|done].
    apply Forall_cons in Hhas as [Hka' _]. unfold has_key in Hka'.
    rewrite Hka'. by rewrite app_nil_r.
Qed.

Lemma absent_run (B : list Snapshot) :
  ∀ (rest : list Snapshot) (st : TrackState),
  Forall wf_snapshot B → Forall (λ s, ¬ has_key k s) B →
  position_start_times (reconcile_steps (length B) (B ++ rest) st) !! k
    = position_start_times st !! k ∧
  filter (λ cp, cp_key cp = k)
    (closed_positions (reconcile_steps (length B) (B ++ rest) st))
    = filter (λ cp, cp_key cp = k) (closed_positions st).
Proof.
  induction B as [|b B IH]; intros rest st Hwf Hlack; [done|].
  apply Forall_cons in Hwf as [Hwb Hwf]. apply Forall_cons in Hlack as [Hkb Hlack].
  cbn [length app reconcile_steps].
  destruct (IH rest (iteration b (head (B ++ rest)) st) Hwf Hlack) as [-> ->].
  rewrite iteration_lookup, iteration_closed_key by done.
  unfold has_key, dict_mem in Hkb.
  destruct (dict_get k (positions b)) as [pd|]; [done|].
  by rewrite app_nil_r.
Qed.
End runs.

(** ** The snapshot sequence built from the rows *)

Lemma snapshot_sequence_item (rows : list Row) (snap : Snapshot) :
  snap ∈ snapshot_sequence rows → ∃ id, (id, snap) ∈ build_snapshots_map rows.
Proof.
  unfold snapshot_sequence, sorted_snap_items. rewrite list_elem_of_fmap.
  intros ([id s] & -> & Hin). exists id. by rewrite sorted_perm in Hin.
Qed.

Lemma snapshot_sequence_wf (rows : list Row) :
  Forall wf_snapshot (snapshot_sequence rows).
Proof.
  apply Forall_forall. intros snap Hin.
  destruct (snapshot_sequence_item _ _ Hin) as [id Hid].
  by destruct (inv_wf _ _ (build_snapshots_map_inv rows) _ _ Hid).
Qed.

Lemma snapshot_sequence_nonempty (rows : list Row) :
  Forall (λ snap, positions snap ≠ []) (snapshot_sequence rows).
Proof.
  apply Forall_forall. intros snap Hin.
  destruct (snapshot_sequence_item _ _ Hin) as [id Hid].
  by destruct (inv_wf _ _ (build_snapshots_map_inv rows) _ _ Hid).
Qed.

Lemma get_closed_positions_perm (rows : list Row) :
  get_closed_positions rows
  ≡ₚ closed_positions (reconcile (snapshot_sequence rows)).
Proof. apply sorted_perm. Qed.

Lemma get_closed_positions_origin (rows : list Row) (cp : ClosedPosition) :
  cp ∈ get_closed_positions rows →
  ∃ (i : nat) (curr next : Snapshot) (pd : PosData),
    snapshot_sequence rows !! i = Some curr ∧
    snapshot_sequence rows !! S i = Some next ∧
    dict_get (cp_key cp) (positions curr) = Some pd ∧
    dict_mem (cp_key cp) (positions next) = false ∧
    cp = closed_of pd (opened_at cp) (created_at next).
Proof.
  rewrite get_closed_positions_perm. intros Hin.
  destruct (reconcile_from_origin _ _ _ (snapshot_sequence_wf rows) Hin) as [H0|H]; [|done].
  by apply elem_of_nil in H0.
Qed.

Lemma get_closed_positions_short (rows : list Row) :
  (length (snapshot_sequence rows) ≤ 1)%nat → get_closed_positions rows = [].
Proof.
  intros Hlen. unfold get_closed_positions. by rewrite reconcile_short.
Qed.


(** ** Closed positions *)









(** C8. Every returned closed position is one of the fetched rows with its
    missing numbers replaced by 0: symbol, side and leverage are the row's,
    and entry price, exit price and realised pnl are the row's
    [entry_price], [mark_price] and [pnl_usd] where present and 0 where
    NULL. The three fields are numbers by their type. *)
Theorem missing_fields_default_to_zero (rows : list Row) (cp : ClosedPosition) :
  cp ∈ get_closed_positions rows →
  ∃ row, row ∈ rows ∧
    symbol cp = row_symbol row ∧ side cp = row_side row ∧
    leverage cp = row_leverage row ∧
    entry_price cp = default 0%Q (row_entry_price row) ∧
    exit_price cp = default 0%Q (row_mark_price row) ∧
    pnl_usd cp = default 0%Q (row_pnl_usd row).
Proof.
  intros Hin.
  destruct (get_closed_positions_origin _ _ Hin)
    as (i & curr & next & pd & Hi & _ & Hg & _ & Hcp).
  apply list_elem_of_lookup_2 in Hi.
  destruct (snapshot_sequence_item _ _ Hi) as [id Hid].
  apply dict_get_Some_elem in Hg.
  destruct (inv_rows _ _ (build_snapshots_map_inv rows) _ _ _ _ Hid Hg)
    as (row & Hrow & _ & _ & Hpd).
  exists row. split; [done|]. rewrite Hcp, Hpd. by simpl.
Qed.

Lemma missing_fields_default_to_zero_witness :
  mkClosedPosition "BTC" "long" 100 0 3 1 3 (Some "5x")
    ∈ get_closed_positions scenario_a ∧
  ∃ row, row ∈ scenario_a ∧
    "BTC" = row_symbol row ∧ "long" = row_side row ∧
    Some "5x" = row_leverage row ∧
    100%Q = default 0%Q (row_entry_price row) ∧
    0%Q = default 0%Q (row_mark_price row) ∧
    3%Q = default 0%Q (row_pnl_usd row).
Proof.
  assert (mkClosedPosition "BTC" "long" 100 0 3 1 3 (Some "5x")
            ∈ get_closed_positions scenario_a) as Hin.
  { apply elem_of_cons. by left. }
  split; [exact Hin|].
  exact (missing_fields_default_to_zero scenario_a _ Hin).
Defined.

(** ** Order of the snapshots *)

(** C7, as stated, fails on ties: two snapshots of timestamp 5 are
    processed in the order of the rows, id 2 before id 1. *)
Lemma tie_not_broken_by_id_counterexample :
  created_at <$> snapshot_sequence tie_rows = [5; 5] ∧
  sorted_snap_ids tie_rows = [2; 1] ∧
  ¬ ties_broken_by_id tie_rows.
Proof.
  split; [reflexivity|]. split; [reflexivity|].
  intros Hties.
  specialize (Hties 0%nat 1%nat
    (2, mkSnapshot 5 [("BTC_long", mkPosData "BTC" "long" 100 101 3 (Some "5x"))])
    (1, mkSnapshot 5 [("ETH_short", mkPosData "ETH" "short" 100 50 3 (Some "5x"))])
    eq_refl eq_refl ltac:(lia) eq_refl).
  simpl in Hties. lia.
Qed.

(** C7, amended. The snapshots are processed in non-decreasing order of
    their timestamps; they are the distinct snapshot ids of the rows, each
    with the timestamp of its first row; snapshots of one timestamp are
    processed in the order in which their first rows were fetched, whatever
    their ids. *)
Theorem snapshots_processed_in_stable_time_order (rows : list Row) :
  Sorted Z.le (created_at <$> snapshot_sequence rows) ∧
  sorted_snap_ids rows ≡ₚ first_seen (row_snap_id <$> rows) ∧
  (build_snapshots_map rows).*1 = first_seen (row_snap_id <$> rows) ∧
  (∀ id snap, (id, snap) ∈ build_snapshots_map rows →
     ∃ row, first_row id rows = Some row ∧ created_at snap = row_created_at row) ∧
  (∀ t : datetime,
     (filter (λ item, created_at item.2 = t)
        (sorted_snap_items (build_snapshots_map rows))).*1
     = (filter (λ item, created_at item.2 = t) (build_snapshots_map rows)).*1).
Proof.
  pose proof (build_snapshots_map_inv rows) as [Hkeys _ _ Htime].
  split; [|split; [|split; [|split]]].
  - unfold snapshot_sequence, sorted_snap_items.
    rewrite <- (list_fmap_compose snd created_at).
    apply (Sorted_fmap _ (λ a b : Z * Snapshot, created_at a.2 ≤ created_at b.2)).
    + intros x y. done.
    + apply (sorted_Sorted (λ item : Z * Snapshot, created_at item.2)).
  - unfold sorted_snap_ids, sorted_snap_items. by rewrite sorted_perm, Hkeys.
  - done.
  - done.
  - intros t. unfold sorted_snap_items.
    by rewrite (sorted_stable (λ item : Z * Snapshot, created_at item.2)).
Qed.

Lemma snapshots_processed_in_stable_time_order_witness :
  (2, mkSnapshot 5 [("BTC_long", mkPosData "BTC" "long" 100 101 3 (Some "5x"))])
    ∈ build_snapshots_map tie_rows ∧
  ∃ row, first_row 2 tie_rows = Some row ∧ 5 = row_created_at row.
Proof.
  assert ((2, mkSnapshot 5 [("BTC_long", mkPosData "BTC" "long" 100 101 3 (Some "5x"))])
            ∈ build_snapshots_map tie_rows) as Hin.
  { apply elem_of_cons. by left. }
  split; [exact Hin|].
  destruct (snapshots_processed_in_stable_time_order tie_rows) as (_ & _ & _ & H & _).
  exact (H _ _ Hin).
Defined.

(** ** Snapshots without positions *)

Lemma fetch_rows_elem (account_snapshots : list AccountSnapshot)
    (open_positions : list OpenPositionRow) (row : Row) :
  row ∈ fetch_rows account_snapshots open_positions ↔
  ∃ s op, s ∈ account_snapshots ∧ op ∈ open_positions ∧
          as_id s = op_snapshot_id op ∧ row = join_row s op.
Proof.
  unfold fetch_rows. rewrite sorted_perm, list_elem_of_bind. split.
  - intros (s & Hrow & Hs). apply list_elem_of_fmap in Hrow as (op & -> & Hop).
    apply list_elem_of_filter in Hop as [Hid Hop]. by exists s, op.
  - intros (s & op & Hs & Hop & Hid & ->). exists s. split; [|done].
    apply list_elem_of_fmap. exists op. split; [done|].
    by apply list_elem_of_filter.
Qed.

Lemma sorted_snap_ids_elem (rows : list Row) (id : Z) :
  id ∈ sorted_snap_ids rows ↔ ∃ row, row ∈ rows ∧ row_snap_id row = id.
Proof.
  unfold sorted_snap_ids, sorted_snap_items.
  rewrite sorted_perm, (inv_keys _ _ (build_snapshots_map_inv rows)).
  rewrite first_seen_elem, list_elem_of_fmap. naive_solver.
Qed.

(** C9. The reconciler sees only the snapshots that have at least one
    position row: the ids it walks are those of the account snapshots that
    some open-position row refers to, every snapshot of its sequence holds
    a position, and every closed position is closed at the timestamp of the
    next snapshot of that sequence, one that holds a position.  That
    timestamp can be later than an account snapshot without positions,
    taken after the key was last seen. *)
Theorem empty_snapshots_are_invisible
    (account_snapshots : list AccountSnapshot)
    (open_positions : list OpenPositionRow) :
  (∀ id, id ∈ sorted_snap_ids (fetch_rows account_snapshots open_positions) ↔
     ∃ s op, s ∈ account_snapshots ∧ op ∈ open_positions ∧
             as_id s = id ∧ op_snapshot_id op = id) ∧
  Forall (λ snap, positions snap ≠ [])
    (snapshot_sequence (fetch_rows account_snapshots open_positions)) ∧
  (∀ cp, cp ∈ get_closed_positions (fetch_rows account_snapshots open_positions) →
     ∃ (i : nat) (curr next : Snapshot),
       snapshot_sequence (fetch_rows account_snapshots open_positions) !! i
         = Some curr ∧
       snapshot_sequence (fetch_rows account_snapshots open_positions) !! S i
         = Some next ∧
       has_key (cp_key cp) curr ∧ ¬ has_key (cp_key cp) next ∧
       positions next ≠ [] ∧
       closed_at cp = created_at next) ∧
  (∃ (s : AccountSnapshot) (cp : ClosedPosition),
     s ∈ gap_snapshots ∧
     (∀ op, op ∈ gap_positions → op_snapshot_id op ≠ as_id s) ∧
     get_closed_positions (fetch_rows gap_snapshots gap_positions) = [cp] ∧
     opened_at cp < as_created_at s < closed_at cp).
Proof.
  split; [|split; [apply snapshot_sequence_nonempty|split]].
  - intros id. rewrite sorted_snap_ids_elem. split.
    + intros (row & Hrow & <-).
      apply fetch_rows_elem in Hrow as (s & op & ? & ? & ? & ->).
      by exists s, op.
    + intros (s & op & Hs & Hop & <- & Hid).
      exists (join_row s op). split; [|done].
      apply fetch_rows_elem. by exists s, op.
  - intros cp Hin.
    destruct (get_closed_positions_origin _ _ Hin)
      as (i & curr & next & pd & Hi & Hn & Hg & Hm & Hcp).
    exists i, curr, next. split; [done|]. split; [done|]. unfold has_key.
    split; [unfold dict_mem; by rewrite Hg|]. split; [by rewrite Hm|].
    split; [|by rewrite Hcp].
    pose proof (snapshot_sequence_nonempty (fetch_rows account_snapshots open_positions)) as Hne.
    rewrite Forall_forall in Hne. apply Hne. by eapply list_elem_of_lookup_2.
  - exists (mkAccountSnapshot 2 20 1000),
           (mkClosedPosition "BTC" "long" 100 101 3 10 30 None).
    split; [apply elem_of_cons; right; apply elem_of_cons; by left|].
    split; [|split; [reflexivity | simpl; lia]].
    intros op Hop. simpl.
    apply elem_of_cons in Hop as [->|Hop]; [done|].
    apply list_elem_of_singleton in Hop as ->. done.
Qed.

Lemma empty_snapshots_are_invisible_witness :
  mkClosedPosition "BTC" "long" 100 101 3 10 30 None
    ∈ get_closed_positions (fetch_rows gap_snapshots gap_positions) ∧
  ∃ (i : nat) (curr next : Snapshot),
    snapshot_sequence (fetch_rows gap_snapshots gap_positions) !! i = Some curr ∧
    snapshot_sequence (fetch_rows gap_snapshots gap_positions) !! S i = Some next ∧
    has_key "BTC_long" curr ∧ ¬ has_key "BTC_long" next ∧
    positions next ≠ [] ∧
    30 = created_at next.
Proof.
  assert (mkClosedPosition "BTC" "long" 100 101 3 10 30 None
            ∈ get_closed_positions (fetch_rows gap_snapshots gap_positions)) as Hin.
  { apply elem_of_cons. by left. }
  split; [exact Hin|].
  destruct (empty_snapshots_are_invisible gap_snapshots gap_positions) as (_ & _ & H & _).
  exact (H _ Hin).
Defined.

(** ** Degenerate inputs *)

(** C6, as stated, fails for the archive regime: with one balance point, on
    the split date, the archive regime has no point and its statistics are
    absent, not zero. *)
Lemma archive_stats_no_points_counterexample :
  archive_points current_only = [] ∧
  ¬ ∃ st, archive_stats (ui_pnl_stats current_only) = Some st ∧
          (stats_pnl_usd st == 0)%Q ∧ (pnl_percent st == 0)%Q.
Proof.
  split; [reflexivity|]. intros (st & Hst & _). discriminate Hst.
Qed.

(** C6, amended. A snapshot sequence of zero or one snapshots gives an
    empty list of closed positions, and both regimes then count 0 positions,
    0 wins, 0 losses and a win rate of 0.  With no balance point at all the
    PnL view has no statistics for either regime and [has_data] is false;
    with balance points none of which is in the archive regime the archive
    statistics are absent; with balance points none of which is in the
    current regime the current statistics are 1032, 1032, 0 and 0; a first
    archive balance of 0 gives a [pnl_percent] of 0.  Every function is
    total: no input raises an error. *)
Theorem degenerate_inputs (rows : list Row) (points : list BalancePoint) :
  ((length (snapshot_sequence rows) ≤ 1)%nat →
     get_closed_positions rows = [] ∧
     view_current_positions (ui_closed_positions rows) = [] ∧
     view_archive_positions (ui_closed_positions rows) = [] ∧
     view_current_stats (ui_closed_positions rows) = calculate_stats [] ∧
     view_archive_stats (ui_closed_positions rows) = calculate_stats []) ∧
  (total (calculate_stats []) = 0 ∧ wins (calculate_stats []) = 0 ∧
   losses (calculate_stats []) = 0 ∧ (win_rate (calculate_stats []) == 0)%Q) ∧
  ui_pnl_stats []
    = {| current_stats := None; archive_stats := None; has_data := false |} ∧
  (points ≠ [] → has_data (ui_pnl_stats points) = true) ∧
  (archive_points points = [] → archive_stats (ui_pnl_stats points) = None) ∧
  (points ≠ [] → current_points points = [] →
     current_stats (ui_pnl_stats points)
     = Some {| initial_balance := 1032; current_balance := 1032;
               stats_pnl_usd := 0; pnl_percent := 0 |}) ∧
  (∀ st, archive_stats (ui_pnl_stats points) = Some st →
     (initial_balance st == 0)%Q → pnl_percent st = 0%Q).
Proof.
  split; [|split; [|split; [|split; [|split; [|split]]]]].
  - intros Hlen. unfold ui_closed_positions.
    rewrite get_closed_positions_short by done. by cbn.
  - by vm_compute.
  - reflexivity.
  - by destruct points.
  - intros Ha. destruct points as [|p points]; [done|].
    unfold ui_pnl_stats, archive_stats, compute_archive_stats. by rewrite Ha.
  - intros Hne Hc. destruct points as [|p points]; [done|].
    unfold ui_pnl_stats, current_stats, compute_current_stats. by rewrite Hc.
  - intros st. destruct points as [|p points]; [done|].
    unfold ui_pnl_stats, archive_stats, compute_archive_stats.
    destruct (archive_points (p :: points)) as [|f fs]; [done|].
    intros Hst. injection Hst as <-. simpl. intros H0.
    by rewrite decide_True.
Qed.

Lemma degenerate_inputs_witness :
  (length (snapshot_sequence (@nil Row)) ≤ 1)%nat ∧
  get_closed_positions [] = [] ∧
  [mkBalancePoint (split_date * us_per_day) 900] ≠ [] ∧
  archive_points [mkBalancePoint (split_date * us_per_day) 900] = [] ∧
  archive_stats (ui_pnl_stats [mkBalancePoint (split_date * us_per_day) 900]) = None.
Proof.
  destruct (degenerate_inputs [] [mkBalancePoint (split_date * us_per_day) 900])
    as (H1 & _ & _ & _ & H5 & _).
  split; [simpl; lia|]. split; [apply H1; simpl; lia|].
  split; [discriminate|]. split; [reflexivity|].
  apply H5. reflexivity.
Defined.

(** * Further properties of the code *)

(** ** Order of the returned list *)

Lemma Sorted_impl {A} (R1 R2 : relation A) (l : list A) :
  (∀ x y, R1 x y → R2 x y) → Sorted R1 l → Sorted R2 l.
Proof.
  intros Himpl. induction 1 as [|x l Hs IH Hhd]; constructor; [done|].
  destruct Hhd; constructor. by apply Himpl.
Qed.

Lemma sort_closed_StronglySorted (l : list ClosedPosition) :
  StronglySorted (λ p q, closed_at q ≤ closed_at p) (sort_closed l).
Proof.
  unfold sort_closed.
  assert (Transitive (λ p q : ClosedPosition, closed_at q ≤ closed_at p)) as Htrans.
  { intros p q r ? ?. lia. }
  apply Sorted_StronglySorted; [done|].
  eapply Sorted_impl; [|apply (sorted_Sorted (λ x : ClosedPosition, - closed_at x))].
  intros p q. simpl. lia.
Qed.

(** X1. The returned closed positions come most recently closed first, and
    those closed at one timestamp keep the order in which the loop appended
    them. *)
Theorem get_closed_positions_most_recent_first (rows : list Row) :
  StronglySorted (λ p q, closed_at q ≤ closed_at p) (get_closed_positions rows) ∧
  (∀ t : datetime,
     filter (λ p, closed_at p = t) (get_closed_positions rows)
     = filter (λ p, closed_at p = t)
         (closed_positions (reconcile (snapshot_sequence rows)))).
Proof.
  split; [apply sort_closed_StronglySorted|].
  intros t. unfold get_closed_positions, sort_closed.
  pose proof (sorted_stable (λ x : ClosedPosition, - closed_at x) (- t)
                (closed_positions (reconcile (snapshot_sequence rows)))) as Hst.
  erewrite (list_filter_iff (λ p, closed_at p = t)); [erewrite Hst|].
  - apply list_filter_iff. intros p. simpl. lia.
  - intros p. simpl. lia.
Qed.

(** ** How many positions are closed *)

Lemma closures_length (pst : gmap string datetime) (curr next : Snapshot) :
  length (closures pst curr next) = length (vanished curr next).
Proof.
  unfold closures, vanished. induction (positions curr) as [|item d IH]; [done|].
  rewrite filter_cons. cbn [omap list_omap].
  destruct (dict_mem item.1 (positions next)) eqn:Hm.
  - rewrite decide_False by done. exact IH.
  - rewrite decide_True by done. simpl. by rewrite IH.
Qed.

Lemma reconcile_from_length (snaps : list Snapshot) (st : TrackState) :
  Forall wf_snapshot snaps →
  length (closed_positions (reconcile_from snaps st))
  = (length (closed_positions st) + vanish_count snaps)%nat.
Proof.
  revert st. induction snaps as [|curr rest IH]; intros st Hwf; [simpl; lia|].
  apply Forall_cons in Hwf as [Hc Hrest]. cbn [reconcile_from].
  rewrite IH by done. destruct rest as [|next rest]; [simpl; lia|].
  cbn [head]. rewrite iteration_closed_Some, length_app, closures_length by done.
  cbn [vanish_count]. lia.
Qed.

(** X2. The returned list has one closed position for every record that is
    in a snapshot and whose key is not in the next snapshot, and no other:
    its length is the number of such records over all adjacent pairs. *)
Theorem closed_positions_count (rows : list Row) :
  length (get_closed_positions rows) = vanish_count (snapshot_sequence rows).
Proof.
  rewrite get_closed_positions_perm. unfold reconcile.
  by rewrite reconcile_from_length by apply snapshot_sequence_wf.
Qed.

(** ** The two regimes of closed positions *)

Lemma filter_split_length {A} (P : A → Prop) `{∀ x, Decision (P x)} (l : list A) :
  (length (filter P l) + length (filter (λ x, ¬ P x) l))%nat = length l.
Proof. by rewrite <- length_app, filter_split_perm. Qed.

Lemma regimes_length (l : list ClosedPosition) :
  (length (current_positions l) + length (archive_positions l))%nat = length l.
Proof. rewrite archive_positions_alt. apply filter_split_length. Qed.

Lemma filter_comm {A} (P Q : A → Prop) `{∀ x, Decision (P x)} `{∀ x, Decision (Q x)}
    (l : list A) :
  filter P (filter Q l) = filter Q (filter P l).
Proof.
  induction l as [|x l IH]; [done|].
  rewrite !filter_cons.
  destruct (decide (Q x)), (decide (P x)); rewrite ?filter_cons;
    rewrite ?decide_True by done; rewrite ?decide_False by done; by rewrite IH.
Qed.

Lemma regimes_wins (l : list ClosedPosition) :
  (length (filter (λ p, (0 < pnl_usd p)%Q) (current_positions l))
   + length (filter (λ p, (0 < pnl_usd p)%Q) (archive_positions l)))%nat
  = length (filter (λ p, (0 < pnl_usd p)%Q) l).
Proof.
  rewrite archive_positions_alt. unfold current_positions.
  rewrite (filter_comm (λ p, (0 < pnl_usd p)%Q) (λ p, split_date ≤ date (opened_at p))).
  rewrite (filter_comm (λ p, (0 < pnl_usd p)%Q) (λ p, ¬ split_date ≤ date (opened_at p))).
  apply filter_split_length.
Qed.

(** X3. The statistics of the two regimes cover every closed position
    once, whatever the 20 shown per regime: the totals add up to the number
    of closed positions, the wins to the number of those with a positive
    pnl, the losses to the number of the others; in each regime wins and
    losses are not negative and add up to the total. *)
Theorem regime_stats_add_up (rows : list Row) :
  total (view_current_stats (ui_closed_positions rows))
    + total (view_archive_stats (ui_closed_positions rows))
    = Z.of_nat (length (get_closed_positions rows)) ∧
  wins (view_current_stats (ui_closed_positions rows))
    + wins (view_archive_stats (ui_closed_positions rows))
    = Z.of_nat (length (filter (λ p, (0 < pnl_usd p)%Q)
                          (get_closed_positions rows))) ∧
  losses (view_current_stats (ui_closed_positions rows))
    + losses (view_archive_stats (ui_closed_positions rows))
    = Z.of_nat (length (filter (λ p, ¬ (0 < pnl_usd p)%Q)
                          (get_closed_positions rows))) ∧
  (∀ s, s = view_current_stats (ui_closed_positions rows)
        ∨ s = view_archive_stats (ui_closed_positions rows) →
        0 ≤ wins s ∧ 0 ≤ losses s ∧ wins s + losses s = total s).
Proof.
  unfold ui_closed_positions. cbn [view_current_stats view_archive_stats].
  generalize (get_closed_positions rows) as l. intros l.
  pose proof (regimes_length l) as Hlen.
  pose proof (regimes_wins l) as Hwins.
  pose proof (filter_split_length (λ p, (0 < pnl_usd p)%Q) l) as Hsplit.
  pose proof (wins_le_total (current_positions l)) as Hc.
  pose proof (wins_le_total (archive_positions l)) as Ha.
  unfold calculate_stats. cbn [total wins losses].
  split; [lia|]. split; [lia|]. split; [lia|].
  intros s [-> | ->]; cbn [total wins losses]; lia.
Qed.

Lemma StronglySorted_filter {A} (R : relation A) (P : A → Prop)
    `{∀ x, Decision (P x)} (l : list A) :
  StronglySorted R l → StronglySorted R (filter P l).
Proof.
  induction 1 as [|x l Hs IH Hall]; [constructor|].
  rewrite filter_cons. destruct (decide (P x)); [|done].
  constructor; [done|]. rewrite Forall_forall in Hall |- *.
  intros y Hy. apply Hall. by apply list_elem_of_filter in Hy as [_ ?].
Qed.

Lemma StronglySorted_take_drop {A} (R : relation A) (n : nat) (l : list A) (x y : A) :
  StronglySorted R l → x ∈ take n l → y ∈ drop n l → R x y.
Proof.
  intros Hs Hx Hy. rewrite <- (take_drop n l) in Hs.
  by eapply StronglySorted_app_1_elem_of.
Qed.

(** X4. Each regime shows at most 20 closed positions, the first 20 of the
    regime in the order of the returned list; they are its most recently
    closed ones: no position of the regime that is left out was closed
    later than one that is shown. *)
Theorem shown_positions_are_most_recent (rows : list Row) :
  (length (view_current_positions (ui_closed_positions rows)) ≤ 20)%nat ∧
  (length (view_archive_positions (ui_closed_positions rows)) ≤ 20)%nat ∧
  view_current_positions (ui_closed_positions rows)
    `prefix_of` current_positions (get_closed_positions rows) ∧
  view_archive_positions (ui_closed_positions rows)
    `prefix_of` archive_positions (get_closed_positions rows) ∧
  (∀ p q, p ∈ view_current_positions (ui_closed_positions rows) →
          q ∈ drop 20 (current_positions (get_closed_positions rows)) →
          closed_at q ≤ closed_at p) ∧
  (∀ p q, p ∈ view_archive_positions (ui_closed_positions rows) →
          q ∈ drop 20 (archive_positions (get_closed_positions rows)) →
          closed_at q ≤ closed_at p).
Proof.
  unfold ui_closed_positions. cbn [view_current_positions view_archive_positions].
  pose proof (sort_closed_StronglySorted
                (closed_positions (reconcile (snapshot_sequence rows)))) as Hs.
  fold (get_closed_positions rows) in Hs.
  split; [rewrite length_take; lia|]. split; [rewrite length_take; lia|].
  split; [apply prefix_take|]. split; [apply prefix_take|].
  split; intros p q Hp Hq.
  - eapply (StronglySorted_take_drop (λ p q, closed_at q ≤ closed_at p)); [|done..].
    by apply StronglySorted_filter.
  - eapply (StronglySorted_take_drop (λ p q, closed_at q ≤ closed_at p)); [|done..].
    by apply StronglySorted_filter.
Qed.

Lemma shown_positions_are_most_recent_witness :
  mkClosedPosition "ETH" "short" 100 50 3 2 3 (Some "5x")
    ∈ view_archive_positions (ui_closed_positions reopen_rows) ∧
  ∀ q, q ∈ drop 20 (archive_positions (get_closed_positions reopen_rows)) →
       closed_at q ≤ 3.
Proof.
  assert (mkClosedPosition "ETH" "short" 100 50 3 2 3 (Some "5x")
            ∈ view_archive_positions (ui_closed_positions reopen_rows)) as Hin.
  { apply elem_of_cons. by left. }
  split; [exact Hin|]. intros q Hq.
  destruct (shown_positions_are_most_recent reopen_rows) as (_ & _ & _ & _ & _ & H).
  exact (H _ q Hin Hq).
Defined.

(** ** The win rate at its ends *)

Lemma round1_whole (x : Q) (m : Z) :
  0 ≤ m ≤ 100 → (x == inject_Z m)%Q → (round1 x == inject_Z m)%Q.
Proof.
  intros Hm Hx. unfold round1.
  destruct (round_half_even_bounds (x * 10) (m * 10) (m * 10)) as [Hlo Hhi].
  - rewrite Hx, inject_Z_mult. apply Qle_refl.
  - rewrite Hx, inject_Z_mult. apply Qle_refl.
  - replace (round_half_even (x * 10)) with (m * 10) by lia.
    apply rnd53_exact; [lia|]. rewrite inject_Z_mult. field.
Qed.

Lemma win_rate_of_all (t : Z) : 0 < t → (win_rate_of t t == 100)%Q.
Proof.
  intros Ht. unfold win_rate_of, float_mul, float_div.
  rewrite (proj2 (Z.ltb_lt _ _) Ht).
  assert (¬ (inject_Z t == 0)%Q) as Hnz.
  { change 0%Q with (inject_Z 0). rewrite inject_Z_injective. lia. }
  assert (rnd53 (inject_Z t / inject_Z t) == inject_Z 1)%Q as Hq.
  { apply rnd53_exact; [lia|]. change (inject_Z 1) with 1%Q. by field. }
  apply (rnd53_exact _ 100); [lia|]. rewrite Hq. done.
Qed.

Lemma win_rate_of_none (t : Z) : (win_rate_of 0 t == 0)%Q.
Proof.
  unfold win_rate_of, float_mul, float_div. destruct (0 <? t); [|done].
  assert (rnd53 (inject_Z 0 / inject_Z t) == inject_Z 0)%Q as Hq.
  { apply rnd53_exact; [lia|]. unfold Qdiv. by rewrite Qmult_0_l. }
  apply (rnd53_exact _ 0); [lia|]. rewrite Hq. done.
Qed.

(** X5. A regime with at least one closed position, all of positive pnl,
    has a win rate of 100; a regime without a closed position of positive
    pnl has a win rate of 0. *)
Theorem win_rate_extremes (pos_list : list ClosedPosition) :
  (pos_list ≠ [] → Forall (λ p, (0 < pnl_usd p)%Q) pos_list →
   (win_rate (calculate_stats pos_list) == 100)%Q) ∧
  (Forall (λ p, ¬ (0 < pnl_usd p)%Q) pos_list →
   (win_rate (calculate_stats pos_list) == 0)%Q).
Proof.
  unfold calculate_stats. cbn [win_rate]. split.
  - intros Hne Hall.
    assert (filter (λ p, (0 < pnl_usd p)%Q) pos_list = pos_list) as ->.
    { clear Hne. induction Hall as [|p l Hp Hall IH]; [done|].
      by rewrite filter_cons, decide_True, IH. }
    assert (0 < Z.of_nat (length pos_list)) as Hpos by (destruct pos_list; [done | simpl; lia]).
    apply (round1_whole _ 100); [lia|]. by apply win_rate_of_all.
  - intros Hall.
    assert (filter (λ p, (0 < pnl_usd p)%Q) pos_list = []) as ->.
    { apply filter_none. rewrite Forall_forall in Hall. exact Hall. }
    apply (round1_whole _ 0); [lia|]. apply win_rate_of_none.
Qed.

Lemma win_rate_extremes_witness :
  take 1 scenario_c ≠ [] ∧
  Forall (λ p, (0 < pnl_usd p)%Q) (take 1 scenario_c) ∧
  (win_rate (calculate_stats (take 1 scenario_c)) == 100)%Q.
Proof.
  assert (Forall (λ p, (0 < pnl_usd p)%Q) (take 1 scenario_c)) as Hall.
  { repeat constructor. }
  split; [discriminate|]. split; [exact Hall|].
  apply (win_rate_extremes (take 1 scenario_c)); [discriminate | exact Hall].
Defined.

(** ** What the tracking dictionary holds *)

Lemma closures_elem_opened (pst : gmap string datetime) (curr next : Snapshot)
    (cp : ClosedPosition) :
  wf_snapshot curr →
  cp ∈ closures pst curr next →
  has_key (cp_key cp) curr ∧ ¬ has_key (cp_key cp) next ∧
  opened_at cp = default (created_at curr) (pst !! cp_key cp) ∧
  closed_at cp = created_at next.
Proof.
  intros [Hnd Hkeys]. unfold closures. rewrite list_elem_of_omap.
  intros ([k pd] & Hin & Hcp). cbn [fst snd] in Hcp.
  destruct (dict_mem k (positions next)) eqn:Hm; [done|].
  injection Hcp as <-.
  assert (k = pos_key (pd_symbol pd) (pd_side pd)) as Hk by by apply Hkeys.
  unfold cp_key, has_key. simpl. rewrite <- Hk.
  split; [|split; [by rewrite Hm | done]].
  apply dict_mem_true, list_elem_of_fmap. by exists (k, pd).
Qed.

Lemma reconcile_steps_beyond (n : nat) (snaps : list Snapshot) (st : TrackState) :
  snaps !! n = None → reconcile_steps (S n) snaps st = reconcile_steps n snaps st.
Proof.
  intros Hn. apply lookup_ge_None in Hn.
  by rewrite !reconcile_steps_all by lia.
Qed.

(** A closed position of the pass was appended by some iteration, from the
    tracking dictionary as that iteration found it. *)
Lemma reconcile_steps_origin (snaps : list Snapshot) (cp : ClosedPosition) (n : nat) :
  Forall wf_snapshot snaps →
  cp ∈ closed_positions (reconcile_steps n snaps init_state) →
  ∃ (i : nat) (curr next : Snapshot),
    snaps !! i = Some curr ∧ snaps !! S i = Some next ∧
    has_key (cp_key cp) curr ∧ ¬ has_key (cp_key cp) next ∧
    opened_at cp
      = default (created_at curr)
          (position_start_times (reconcile_steps i snaps init_state) !! cp_key cp) ∧
    closed_at cp = created_at next.
Proof.
  intros Hwf. induction n as [|n IH]; intros Hin.
  - destruct snaps; by apply elem_of_nil in Hin.
  - destruct (snaps !! n) as [curr|] eqn:Hn;
      [|rewrite reconcile_steps_beyond in Hin by done; by apply IH].
    rewrite (reconcile_steps_S _ _ _ _ Hn) in Hin.
    destruct (snaps !! S n) as [next|] eqn:Hn'; [|by apply IH].
    assert (wf_snapshot curr) as Hc.
    { rewrite Forall_forall in Hwf. apply Hwf. by eapply list_elem_of_lookup_2. }
    rewrite iteration_closed_Some in Hin by done.
    apply elem_of_app in Hin as [Hin|Hin]; [by apply IH|].
    destruct (closures_elem_opened _ _ _ _ Hc Hin) as (Hk & Hk' & Ho & Hcl).
    exists n, curr, next. split_and!; try done.
    rewrite Ho, registered_default; [done|]. by apply dict_mem_true.
Qed.

(** Before iteration [n] a tracked key is in a run that reaches the
    snapshot of index [n], tracked with the timestamp of the run's first
    snapshot; an untracked key is not in both the snapshot before and the
    snapshot of index [n]. *)
Lemma tracker_inv (k : string) (snaps : list Snapshot) (n : nat) :
  (n < length snaps)%nat →
  match position_start_times (reconcile_steps n snaps init_state) !! k with
  | Some t =>
      ∃ (j : nat) (first : Snapshot),
        (j < n)%nat ∧ snaps !! j = Some first ∧ t = created_at first ∧
        present_between k snaps j n ∧ run_start k snaps j
  | None =>
      n = 0%nat ∨
      (∃ prev, snaps !! pred n = Some prev ∧ ¬ has_key k prev) ∨
      (∃ cur, snaps !! n = Some cur ∧ ¬ has_key k cur)
  end.
Proof.
  induction n as [|n IH]; intros Hlen.
  - assert (reconcile_steps 0 snaps init_state = init_state) as -> by by destruct snaps.
    cbn [init_state position_start_times]. rewrite lookup_empty. by left.
  - specialize (IH ltac:(lia)).
    destruct (lookup_lt_is_Some_2 snaps n ltac:(lia)) as [cur Hcur].
    destruct (lookup_lt_is_Some_2 snaps (S n) ltac:(lia)) as [nx Hnx].
    rewrite (reconcile_steps_S _ _ _ _ Hcur), Hnx, iteration_lookup.
    destruct (dict_get k (positions cur)) as [pd|] eqn:Hg.
    + assert (has_key k cur) as Hk by (unfold has_key, dict_mem; by rewrite Hg).
      destruct (dict_mem k (positions nx)) eqn:Hm.
      * destruct (position_start_times (reconcile_steps n snaps init_state) !! k)
          as [t|].
        -- destruct IH as (j & first & Hj & Hfirst & -> & Hrun & Hstart).
           exists j, first. split_and!; [lia | done | done | | done].
           intros m Hm'. destruct (decide (m = S n)) as [->|Hne].
           ++ by exists nx.
           ++ apply Hrun. lia.
        -- exists n, cur. split_and!; [lia | done | done | |].
           ++ intros m Hm'. destruct (decide (m = n)) as [->|Hne].
              ** by exists cur.
              ** assert (m = S n) as -> by lia. by exists nx.
           ++ destruct IH as [->|[Hprev|(c & Hc & Hnk)]].
              ** by left.
              ** by right.
              ** rewrite Hcur in Hc. injection Hc as <-. done.
      * right. right. exists nx. split; [done|]. unfold has_key. by rewrite Hm.
    + assert (¬ has_key k cur) as Hk by (unfold has_key, dict_mem; by rewrite Hg).
      destruct (position_start_times (reconcile_steps n snaps init_state) !! k)
        as [t|].
      * destruct IH as (j & first & Hj & _ & _ & Hrun & _).
        destruct (Hrun n ltac:(lia)) as (c & Hc & Hkc).
        rewrite Hcur in Hc. injection Hc as <-. done.
      * right. left. by exists cur.
Qed.

(** A closed position of the pass closes a run of its key and is opened at
    the run's first snapshot. *)
Lemma closed_position_run (rows : list Row) (cp : ClosedPosition) :
  cp ∈ get_closed_positions rows →
  ∃ (j i : nat) (first next : Snapshot),
    (j ≤ i)%nat ∧
    snapshot_sequence rows !! j = Some first ∧
    snapshot_sequence rows !! S i = Some next ∧
    present_between (cp_key cp) (snapshot_sequence rows) j i ∧
    run_start (cp_key cp) (snapshot_sequence rows) j ∧
    ¬ has_key (cp_key cp) next ∧
    opened_at cp = created_at first ∧
    closed_at cp = created_at next.
Proof.
  rewrite get_closed_positions_perm. unfold reconcile.
  rewrite <- (reconcile_steps_all _ _ (length (snapshot_sequence rows))) by done.
  intros Hin.
  destruct (reconcile_steps_origin _ _ _ (snapshot_sequence_wf rows) Hin)
    as (i & curr & next & Hi & Hn & Hk & Hk' & Ho & Hc).
  pose proof (tracker_inv (cp_key cp) (snapshot_sequence rows) i) as Hinv.
  specialize (Hinv ltac:(by eapply lookup_lt_Some)).
  destruct (position_start_times _ !! cp_key cp) as [t|].
  - destruct Hinv as (j & first & Hj & Hfirst & -> & Hrun & Hstart).
    exists j, i, first, next. split_and!; try done. lia.
  - exists i, i, curr, next. split_and!; try done.
    + intros m Hm. assert (m = i) as -> by lia. by exists curr.
    + destruct Hinv as [->|[Hprev|(c & Hc' & Hnk)]].
      * by left.
      * by right.
      * rewrite Hi in Hc'. injection Hc' as <-. done.
Qed.


(** X6. Every returned closed position is opened at the first snapshot of
    the run it closes: its key is in every snapshot from some index [j] to
    some index [i], absent from the snapshot before [j] if there is one
    and from the snapshot after [i]; [opened_at] is the timestamp of the
    snapshot at [j] and [closed_at] that of the snapshot after [i]. *)
Theorem opened_at_is_run_start (rows : list Row) (cp : ClosedPosition) :
  cp ∈ get_closed_positions rows →
  ∃ (j i : nat) (first next : Snapshot),
    (j ≤ i)%nat ∧
    snapshot_sequence rows !! j = Some first ∧
    snapshot_sequence rows !! S i = Some next ∧
    present_between (cp_key cp) (snapshot_sequence rows) j i ∧
    run_start (cp_key cp) (snapshot_sequence rows) j ∧
    ¬ has_key (cp_key cp) next ∧
    opened_at cp = created_at first ∧
    closed_at cp = created_at next.
Proof. apply closed_position_run. Qed.

Lemma opened_at_is_run_start_witness :
  mkClosedPosition "BTC" "long" 100 0 3 1 3 (Some "5x")
    ∈ get_closed_positions scenario_a ∧
  ∃ (j i : nat) (first next : Snapshot),
    (j ≤ i)%nat ∧
    snapshot_sequence scenario_a !! j = Some first ∧
    snapshot_sequence scenario_a !! S i = Some next ∧
    present_between "BTC_long" (snapshot_sequence scenario_a) j i ∧
    run_start "BTC_long" (snapshot_sequence scenario_a) j ∧
    ¬ has_key "BTC_long" next ∧
    1 = created_at first ∧
    3 = created_at next.
Proof.
  assert (mkClosedPosition "BTC" "long" 100 0 3 1 3 (Some "5x")
            ∈ get_closed_positions scenario_a) as Hin.
  { apply elem_of_cons. by left. }
  split; [exact Hin|].
  exact (opened_at_is_run_start scenario_a _ Hin).
Defined.

Lemma StronglySorted_lookup {A} (R : relation A) (l : list A) (i j : nat) (x y : A) :
  StronglySorted R l → (i < j)%nat → l !! i = Some x → l !! j = Some y → R x y.
Proof.
  intros Hs Hij Hi Hj.
  apply (StronglySorted_take_drop R j l x y Hs).
  - apply elem_of_take. by exists i.
  - apply list_elem_of_lookup. exists (j - j)%nat. rewrite lookup_drop.
    by replace (j + (j - j))%nat with j by lia.
Qed.

Lemma snapshot_sequence_StronglySorted (rows : list Row) :
  StronglySorted (λ a b : Snapshot, created_at a ≤ created_at b)
    (snapshot_sequence rows).
Proof.
  assert (Transitive (λ a b : Snapshot, created_at a ≤ created_at b)) as Htrans.
  { intros a b c ? ?. lia. }
  apply Sorted_StronglySorted; [done|].
  unfold snapshot_sequence, sorted_snap_items.
  apply (Sorted_fmap _ (λ a b : Z * Snapshot, created_at a.2 ≤ created_at b.2)).
  - intros x y. done.
  - apply (sorted_Sorted (λ item : Z * Snapshot, created_at item.2)).
Qed.

(** X7. No returned closed position is closed before it is opened. *)
Theorem opened_at_le_closed_at (rows : list Row) (cp : ClosedPosition) :
  cp ∈ get_closed_positions rows → opened_at cp ≤ closed_at cp.
Proof.
  intros Hin.
  destruct (closed_position_run _ _ Hin)
    as (j & i & first & next & Hji & Hj & Hn & _ & _ & _ & -> & ->).
  apply (StronglySorted_lookup (λ a b : Snapshot, created_at a ≤ created_at b)
           (snapshot_sequence rows) j (S i)); [|lia|done|done].
  apply snapshot_sequence_StronglySorted.
Qed.

Lemma opened_at_le_closed_at_witness :
  mkClosedPosition "BTC" "long" 100 0 3 1 3 (Some "5x")
    ∈ get_closed_positions scenario_a ∧
  1 ≤ 3.
Proof.
  assert (mkClosedPosition "BTC" "long" 100 0 3 1 3 (Some "5x")
            ∈ get_closed_positions scenario_a) as Hin.
  { apply elem_of_cons. by left. }
  split; [exact Hin|].
  exact (opened_at_le_closed_at scenario_a _ Hin).
Defined.

(** X8. After the pass the tracking dictionary holds exactly the keys of
    the last snapshot, each with the timestamp of the first snapshot of the
    run that reaches the last snapshot; for no snapshot it is empty. *)
Theorem tracked_keys_after_pass (rows : list Row) (k : string) :
  (is_Some (position_start_times (reconcile (snapshot_sequence rows)) !! k) ↔
   ∃ snap, last (snapshot_sequence rows) = Some snap ∧ has_key k snap) ∧
  (∀ t, position_start_times (reconcile (snapshot_sequence rows)) !! k = Some t →
     ∃ (j : nat) (first : Snapshot),
       snapshot_sequence rows !! j = Some first ∧ t = created_at first ∧
       present_between k (snapshot_sequence rows) j
         (pred (length (snapshot_sequence rows))) ∧
       run_start k (snapshot_sequence rows) j).
Proof.
  generalize (snapshot_sequence rows) as snaps. intros snaps.
  destruct snaps as [|s0 snaps'] using rev_ind.
  { unfold reconcile. cbn. rewrite lookup_empty. split.
    - split; [by intros [? ?] | by intros (? & ? & _)].
    - done. }
  clear IHsnaps'. set (snaps := snaps' ++ [s0]).
  assert (length snaps = S (length snaps')) as Hlen
    by (unfold snaps; rewrite length_app; simpl; lia).
  assert (snaps !! length snaps' = Some s0) as Hlast
    by (unfold snaps; by rewrite lookup_app_r, Nat.sub_diag by lia).
  assert (snaps !! S (length snaps') = None) as Hnone
    by (apply lookup_ge_None; lia).
  assert (last snaps = Some s0) as Hl by apply last_snoc.
  unfold reconcile.
  rewrite <- (reconcile_steps_all snaps init_state (S (length snaps'))) by lia.
  rewrite (reconcile_steps_S _ _ _ _ Hlast), Hnone, iteration_lookup, Hl, Hlen.
  cbn [pred].
  pose proof (tracker_inv k snaps (length snaps') ltac:(lia)) as Hinv.
  destruct (dict_get k (positions s0)) as [pd|] eqn:Hg.
  - assert (has_key k s0) as Hk by (unfold has_key, dict_mem; by rewrite Hg).
    split; [split; [intros _; by exists s0 | by eauto]|].
    intros t Ht. injection Ht as <-.
    destruct (position_start_times (reconcile_steps (length snaps') snaps init_state) !! k)
      as [t|].
    + destruct Hinv as (j & first & Hj & Hfirst & -> & Hrun & Hstart).
      by exists j, first.
    + exists (length snaps'), s0. split_and!; [done | done | |].
      * intros m Hm. assert (m = length snaps') as -> by lia. by exists s0.
      * destruct Hinv as [->|[Hprev|(c & Hc & Hnk)]].
        -- by left.
        -- by right.
        -- rewrite Hlast in Hc. injection Hc as <-. done.
  - assert (¬ has_key k s0) as Hk by (unfold has_key, dict_mem; by rewrite Hg).
    destruct (position_start_times (reconcile_steps (length snaps') snaps init_state) !! k)
      as [t|].
    + destruct Hinv as (j & first & Hj & _ & _ & Hrun & _).
      destruct (Hrun (length snaps') ltac:(lia)) as (c & Hc & Hkc).
      rewrite Hlast in Hc. injection Hc as <-. done.
    + split; [|done]. split; [by intros [? ?]|].
      intros (snap & Hsnap & Hks). injection Hsnap as <-. done.
Qed.

(** ** A key that comes back *)

(** C3, as stated, fails in two ways.  When the second run ends as well,
    the two runs yield two closed positions: BTC/long is present, absent,
    present and absent in four snapshots and is closed twice.  And when
    the key is absent only from a snapshot without positions, the loop
    sees one run: nothing is closed and the key stays tracked with the
    timestamp of the first run. *)
Lemma reopen_counterexample :
  (has_key "BTC_long" <$> snapshot_sequence reopen_twice_rows
     = [has_key "BTC_long" (mkSnapshot 1 [("BTC_long", mkPosData "BTC" "long" 100 101 3 (Some "5x"))]);
        has_key "BTC_long" (mkSnapshot 2 [("ETH_short", mkPosData "ETH" "short" 100 50 3 (Some "5x"))]);
        has_key "BTC_long" (mkSnapshot 3 [("BTC_long", mkPosData "BTC" "long" 100 99 3 (Some "5x"))]);
        has_key "BTC_long" (mkSnapshot 4 [("ETH_short", mkPosData "ETH" "short" 100 51 3 (Some "5x"))])] ∧
   filter (λ cp, cp_key cp = "BTC_long") (get_closed_positions reopen_twice_rows)
     = [mkClosedPosition "BTC" "long" 100 99 3 3 4 (Some "5x");
        mkClosedPosition "BTC" "long" 100 101 3 1 2 (Some "5x")]) ∧
  (("BTC_long" ∈ keys_of_snapshot flat_reopen_positions (mkAccountSnapshot 1 10 1000)) ∧
   ("BTC_long" ∉ keys_of_snapshot flat_reopen_positions (mkAccountSnapshot 2 20 1000)) ∧
   ("BTC_long" ∈ keys_of_snapshot flat_reopen_positions (mkAccountSnapshot 3 30 1000)) ∧
   get_closed_positions (fetch_rows flat_reopen_snapshots flat_reopen_positions) = [] ∧
   position_start_times
     (reconcile (snapshot_sequence
                   (fetch_rows flat_reopen_snapshots flat_reopen_positions)))
     !! "BTC_long" = Some 10).
Proof.
  split; [split; reflexivity|].
  split; [apply elem_of_cons; by left|].
  split; [apply not_elem_of_nil|].
  split; [apply elem_of_cons; by left|].
  split; reflexivity.
Qed.

(** The three runs from a state that does not track the key. *)
Lemma reopen_from (k : string) (a b c z : Snapshot) (A B C R : list Snapshot)
    (pd : PosData) (st0 : TrackState) :
  Forall wf_snapshot ((a :: A) ++ (b :: B) ++ (c :: C) ++ R) →
  position_start_times st0 !! k = None →
  Forall (has_key k) (a :: A) →
  Forall (λ snap, ¬ has_key k snap) (b :: B) →
  Forall (has_key k) (c :: C) →
  last (a :: A) = Some z →
  dict_get k (positions z) = Some pd →
  filter (λ cp, cp_key cp = k)
    (closed_positions
       (reconcile_steps (length A) ((a :: A) ++ (b :: B) ++ (c :: C) ++ R) st0))
    = filter (λ cp, cp_key cp = k) (closed_positions st0) ∧
  filter (λ cp, cp_key cp = k)
    (closed_positions
       (reconcile_steps (S (length A)) ((a :: A) ++ (b :: B) ++ (c :: C) ++ R) st0))
    = filter (λ cp, cp_key cp = k) (closed_positions st0)
      ++ [closed_of pd (created_at a) (created_at b)] ∧
  (∀ m : nat, (m ≤ S (length B))%nat →
     position_start_times
       (reconcile_steps (S (length A) + m)
          ((a :: A) ++ (b :: B) ++ (c :: C) ++ R) st0) !! k = None) ∧
  (∀ m : nat, (m ≤ length C)%nat →
     (m = length C → match head R with Some d => has_key k d | None => True end) →
     position_start_times
       (reconcile_steps (S (length A) + S (length B) + S m)
          ((a :: A) ++ (b :: B) ++ (c :: C) ++ R) st0) !! k
       = Some (created_at c) ∧
     filter (λ cp, cp_key cp = k)
       (closed_positions
          (reconcile_steps (S (length A) + S (length B) + S m)
             ((a :: A) ++ (b :: B) ++ (c :: C) ++ R) st0))
       = filter (λ cp, cp_key cp = k) (closed_positions st0)
         ++ [closed_of pd (created_at a) (created_at b)]) ∧
  (∀ (d z' : Snapshot) (D : list Snapshot) (pd' : PosData),
     R = d :: D → ¬ has_key k d →
     last (c :: C) = Some z' → dict_get k (positions z') = Some pd' →
     position_start_times
       (reconcile_steps (S (length A) + S (length B) + S (length C))
          ((a :: A) ++ (b :: B) ++ (c :: C) ++ R) st0) !! k
       = None ∧
     filter (λ cp, cp_key cp = k)
       (closed_positions
          (reconcile_steps (S (length A) + S (length B) + S (length C))
             ((a :: A) ++ (b :: B) ++ (c :: C) ++ R) st0))
       = filter (λ cp, cp_key cp = k) (closed_positions st0)
         ++ [closed_of pd (created_at a) (created_at b);
             closed_of pd' (created_at c) (created_at d)]).
Proof.
  intros Hwf Hst0 HA HB HC Hlast Hpd.
  apply Forall_app in Hwf as [HwA Hwf]. apply Forall_app in Hwf as [HwB Hwf].
  apply Forall_app in Hwf as [HwC HwR].
  assert (Hb : ¬ has_key k b) by by apply Forall_cons in HB as [? _].
  set (base := filter (λ cp, cp_key cp = k) (closed_positions st0)).
  (* before the last iteration of the first run *)
  assert (filter (λ cp, cp_key cp = k)
            (closed_positions
               (reconcile_steps (length A)
                  ((a :: A) ++ (b :: B) ++ (c :: C) ++ R) st0))
          = base) as Hbefore.
  { clear Hlast.
    destruct A as [|a' A' _] using rev_ind; [done|].
    rewrite length_app. simpl. rewrite Nat.add_1_r.
    assert (Forall wf_snapshot (a :: A')) as Hw.
    { apply Forall_cons in HwA as [? HwA]. apply Forall_app in HwA as [? _].
      by apply Forall_cons. }
    assert (Forall (has_key k) (a :: A')) as Hh.
    { apply Forall_cons in HA as [? HA']. apply Forall_app in HA' as [? ?].
      by apply Forall_cons. }
    pose proof (present_run k A' a ([a'] ++ (b :: B) ++ (c :: C) ++ R) st0 Hw Hh)
      as Hrun.
    rewrite <- !app_assoc. cbn [app] in *.
    destruct Hrun as [_ ->]; [|done].
    apply Forall_cons in HA as [_ HA]. apply Forall_app in HA as [_ HA].
    by apply Forall_cons in HA as [? _]. }
  revert Hbefore.
  set (seq := (a :: A) ++ (b :: B) ++ (c :: C) ++ R) in *.
  set (cp1 := closed_of pd (created_at a) (created_at b)).
  intros Hbefore.
  (* the iteration that closes the first run *)
  assert (position_start_times (reconcile_steps (S (length A)) seq st0) !! k = None ∧
          filter (λ cp, cp_key cp = k)
            (closed_positions (reconcile_steps (S (length A)) seq st0))
          = base ++ [cp1]) as Hfirst.
  { destruct (closing_run k A a z b (B ++ (c :: C) ++ R) st0 pd
                HwA HA Hlast Hpd Hb) as [Hp Hc].
    split; [exact Hp|]. etrans; [exact Hc|]. by rewrite Hst0. }
  (* the run that lacks the key *)
  assert (∀ m, (m ≤ S (length B))%nat →
    position_start_times (reconcile_steps (S (length A) + m) seq st0) !! k = None ∧
    filter (λ cp, cp_key cp = k)
      (closed_positions (reconcile_steps (S (length A) + m) seq st0))
      = base ++ [cp1]) as Habsent.
  { intros m Hm. rewrite reconcile_steps_add.
    assert (drop (S (length A)) seq = (b :: B) ++ (c :: C) ++ R) as ->
      by apply (drop_app_length (a :: A)).
    assert (Forall wf_snapshot (take m (b :: B))) as Hw by by apply Forall_take.
    assert (Forall (λ snap, ¬ has_key k snap) (take m (b :: B))) as Hl
      by by apply Forall_take.
    pose proof (absent_run k (take m (b :: B)) (drop m (b :: B) ++ (c :: C) ++ R)
                  (reconcile_steps (S (length A)) seq st0) Hw Hl) as [Hp Hc].
    rewrite (app_assoc (take m (b :: B))), take_drop in Hp, Hc.
    rewrite length_take_le in Hp, Hc by (simpl; lia).
    rewrite Hp, Hc. exact Hfirst. }
  destruct (Habsent (S (length B)) ltac:(lia)) as [Hp0 Hc0].
  assert (drop (S (length A) + S (length B)) seq = (c :: C) ++ R) as Hdrop.
  { unfold seq. rewrite app_assoc.
    change (S (length A) + S (length B))%nat
      with (length (a :: A) + length (b :: B))%nat.
    rewrite <- length_app. apply drop_app_length. }
  (* the second run *)
  assert (∀ m, (m ≤ length C)%nat →
    (m = length C → match head R with Some d => has_key k d | None => True end) →
    position_start_times
      (reconcile_steps (S (length A) + S (length B) + S m) seq st0) !! k
      = Some (created_at c) ∧
    filter (λ cp, cp_key cp = k)
      (closed_positions
         (reconcile_steps (S (length A) + S (length B) + S m) seq st0))
      = base ++ [cp1]) as Hsecond.
  { intros m Hm HR. rewrite reconcile_steps_add, Hdrop.
    assert (Forall wf_snapshot (c :: take m C)) as Hw.
    { apply Forall_cons in HwC as [? ?]. apply Forall_cons.
      split; [done | by apply Forall_take]. }
    assert (Forall (has_key k) (c :: take m C)) as Hh.
    { apply Forall_cons in HC as [? ?]. apply Forall_cons.
      split; [done | by apply Forall_take]. }
    pose proof (present_run k (take m C) c (drop m C ++ R)
                  (reconcile_steps (S (length A) + S (length B)) seq st0)
                  Hw Hh) as Hrun.
    change ((c :: take m C) ++ drop m C ++ R)
      with (c :: (take m C ++ drop m C ++ R)) in Hrun.
    rewrite (app_assoc (take m C)), take_drop, length_take_le in Hrun by done.
    change (c :: (C ++ R)) with ((c :: C) ++ R) in Hrun.
    destruct Hrun as [Hp Hc].
    { destruct (drop m C) as [|n rest] eqn:Hd.
      - apply HR. pose proof (length_drop C m) as Hl. rewrite Hd in Hl.
        simpl in Hl. lia.
      - cbn [app head]. apply Forall_cons in HC as [_ HC].
        apply (Forall_drop _ m) in HC. rewrite Hd in HC.
        by apply Forall_cons in HC as [? _]. }
    rewrite Hp, Hc, Hp0, Hc0. done. }
  split; [exact Hbefore|]. split; [apply Hfirst|].
  split; [|split; [exact Hsecond|]].
  - intros m Hm. by apply Habsent.
  - intros d z' D pd' HR Hd Hlast' Hpd'.
    rewrite reconcile_steps_add, Hdrop, HR.
    destruct (closing_run k C c z' d D
                (reconcile_steps (S (length A) + S (length B)) seq st0) pd'
                HwC HC Hlast' Hpd' Hd) as [Hp Hc].
    split; [exact Hp|]. etrans; [exact Hc|].
    rewrite Hc0, Hp0. by rewrite <- app_assoc.
Qed.

Lemma untracked_before_run (k : string) (P rest : list Snapshot) :
  rest ≠ [] →
  match last P with Some p => ¬ has_key k p | None => True end →
  position_start_times (reconcile_steps (length P) (P ++ rest) init_state) !! k
  = None.
Proof.
  intros Hrest HP.
  pose proof (tracker_inv k (P ++ rest) (length P)) as Hinv.
  destruct (position_start_times _ !! k) as [t|]; [|done].
  destruct Hinv as (j & first & Hj & _ & _ & Hrun & _).
  { rewrite length_app. destruct rest; [done | simpl; lia]. }
  destruct (Hrun (pred (length P)) ltac:(lia)) as (p & Hp & Hkp).
  rewrite lookup_app_l in Hp by lia. rewrite <- last_lookup in Hp.
  rewrite Hp in HP. done.
Qed.

(** C3, amended. In the sequence the loop walks, take a run of snapshots
    that hold a key, then a run that lacks it, then a run that holds it
    again, the first run starting the sequence or following a snapshot that
    lacks the key.  When the first run starts the key is not tracked.  The
    first run yields one closed position, appended by the iteration of its
    last snapshot: opened at the first snapshot of the run, closed at the
    first snapshot that lacks the key.  That iteration deletes the key
    from the tracking dictionary, and the key stays untracked while it is
    absent.  From the first snapshot of the second run on the key is
    tracked with that snapshot's timestamp, and while the second run lasts
    the two runs have no other closed position.  If the sequence ends with
    the second run, the returned list has, for the key, that one closed
    position beside those of earlier runs; if the second run ends as well,
    it yields a second closed position, opened at the second run's first
    snapshot. *)
Theorem reopen_is_independent (rows : list Row) (k : string)
    (a b c z : Snapshot) (P A B C R : list Snapshot) (pd : PosData) :
  snapshot_sequence rows = P ++ (a :: A) ++ (b :: B) ++ (c :: C) ++ R →
  match last P with Some p => ¬ has_key k p | None => True end →
  Forall (has_key k) (a :: A) →
  Forall (λ snap, ¬ has_key k snap) (b :: B) →
  Forall (has_key k) (c :: C) →
  last (a :: A) = Some z →
  dict_get k (positions z) = Some pd →
  (* the first run and its closure *)
  position_start_times
    (reconcile_steps (length P) (snapshot_sequence rows) init_state) !! k = None ∧
  filter (λ cp, cp_key cp = k)
    (closed_positions
       (reconcile_steps (length P + length A) (snapshot_sequence rows) init_state))
    = filter (λ cp, cp_key cp = k)
        (closed_positions
           (reconcile_steps (length P) (snapshot_sequence rows) init_state)) ∧
  filter (λ cp, cp_key cp = k)
    (closed_positions
       (reconcile_steps (length P + S (length A)) (snapshot_sequence rows) init_state))
    = filter (λ cp, cp_key cp = k)
        (closed_positions
           (reconcile_steps (length P) (snapshot_sequence rows) init_state))
      ++ [closed_of pd (created_at a) (created_at b)] ∧
  (* while the key is absent *)
  (∀ m : nat, (m ≤ S (length B))%nat →
     position_start_times
       (reconcile_steps (length P + (S (length A) + m))
          (snapshot_sequence rows) init_state) !! k
       = None) ∧
  (* during the second run *)
  (∀ m : nat, (m ≤ length C)%nat →
     (m = length C → match head R with Some d => has_key k d | None => True end) →
     position_start_times
       (reconcile_steps (length P + (S (length A) + S (length B) + S m))
          (snapshot_sequence rows) init_state) !! k
       = Some (created_at c) ∧
     filter (λ cp, cp_key cp = k)
       (closed_positions
          (reconcile_steps (length P + (S (length A) + S (length B) + S m))
             (snapshot_sequence rows) init_state))
       = filter (λ cp, cp_key cp = k)
           (closed_positions
              (reconcile_steps (length P) (snapshot_sequence rows) init_state))
         ++ [closed_of pd (created_at a) (created_at b)]) ∧
  (* the sequence ends with the second run *)
  (R = [] →
     filter (λ cp, cp_key cp = k) (get_closed_positions rows)
       ≡ₚ filter (λ cp, cp_key cp = k)
            (closed_positions
               (reconcile_steps (length P) (snapshot_sequence rows) init_state))
          ++ [closed_of pd (created_at a) (created_at b)] ∧
     position_start_times (reconcile (snapshot_sequence rows)) !! k
       = Some (created_at c)) ∧
  (* the second run ends as well *)
  (∀ (d z' : Snapshot) (D : list Snapshot) (pd' : PosData),
     R = d :: D → ¬ has_key k d →
     last (c :: C) = Some z' → dict_get k (positions z') = Some pd' →
     position_start_times
       (reconcile_steps (length P + (S (length A) + S (length B) + S (length C)))
          (snapshot_sequence rows) init_state) !! k
       = None ∧
     filter (λ cp, cp_key cp = k)
       (closed_positions
          (reconcile_steps (length P + (S (length A) + S (length B) + S (length C)))
             (snapshot_sequence rows) init_state))
       = filter (λ cp, cp_key cp = k)
           (closed_positions
              (reconcile_steps (length P) (snapshot_sequence rows) init_state))
         ++ [closed_of pd (created_at a) (created_at b);
             closed_of pd' (created_at c) (created_at d)]).
Proof.
  intros Hseq HP HA HB HC Hlast Hpd.
  pose proof (snapshot_sequence_wf rows) as Hwf. rewrite Hseq in Hwf.
  apply Forall_app in Hwf as [_ Hwf].
  assert (Hlen : length (snapshot_sequence rows)
                 = (length P + (S (length A) + S (length B) + S (length C)
                                + length R))%nat).
  { rewrite Hseq, !length_app. simpl. lia. }
  assert (position_start_times
            (reconcile_steps (length P) (snapshot_sequence rows) init_state) !! k
          = None) as Hst0.
  { rewrite Hseq. by apply untracked_before_run. }
  assert (∀ n, reconcile_steps (length P + n) (snapshot_sequence rows) init_state
               = reconcile_steps n ((a :: A) ++ (b :: B) ++ (c :: C) ++ R)
                   (reconcile_steps (length P) (snapshot_sequence rows) init_state))
    as Hshift.
  { intros n. rewrite reconcile_steps_add. f_equal.
    rewrite Hseq. apply drop_app_length. }
  destruct (reopen_from k a b c z A B C R pd
              (reconcile_steps (length P) (snapshot_sequence rows) init_state)
              Hwf Hst0 HA HB HC Hlast Hpd)
    as (H1 & H2 & H3 & H4 & H5).
  split; [exact Hst0|]. rewrite !Hshift.
  split; [exact H1|]. split; [exact H2|].
  split; [intros m Hm; rewrite ?Hshift; by apply H3|].
  split; [intros m Hm HR; rewrite ?Hshift; by apply H4|].
  split.
  - intros HR. subst R. simpl in Hlen.
    destruct (H4 (length C) ltac:(lia) ltac:(done)) as [Hp Hc].
    assert (reconcile (snapshot_sequence rows)
            = reconcile_steps (S (length A) + S (length B) + S (length C))
                ((a :: A) ++ (b :: B) ++ (c :: C) ++ [])
                (reconcile_steps (length P) (snapshot_sequence rows) init_state))
      as Hall.
    { rewrite <- Hshift. unfold reconcile. symmetry.
      apply reconcile_steps_all. lia. }
    split; [|by rewrite Hall].
    by rewrite get_closed_positions_perm, Hall, Hc.
  - intros d z' D pd' HR Hd Hlast' Hpd'. rewrite ?Hshift.
    by apply (H5 d z' D pd').
Qed.

Lemma reopen_is_independent_witness :
  snapshot_sequence reopen_twice_rows
    = [mkSnapshot 1 [("BTC_long", mkPosData "BTC" "long" 100 101 3 (Some "5x"))]]
      ++ [mkSnapshot 2 [("ETH_short", mkPosData "ETH" "short" 100 50 3 (Some "5x"))]]
      ++ [mkSnapshot 3 [("BTC_long", mkPosData "BTC" "long" 100 99 3 (Some "5x"))]]
      ++ [mkSnapshot 4 [("ETH_short", mkPosData "ETH" "short" 100 51 3 (Some "5x"))]]
      ++ [] ∧
  position_start_times
    (reconcile_steps 2 (snapshot_sequence reopen_twice_rows) init_state)
    !! "ETH_short" = None ∧
  filter (λ cp, cp_key cp = "ETH_short") (get_closed_positions reopen_twice_rows)
    ≡ₚ [] ++ [mkClosedPosition "ETH" "short" 100 50 3 2 3 (Some "5x")] ∧
  position_start_times (reconcile (snapshot_sequence reopen_twice_rows))
    !! "ETH_short" = Some 4.
Proof.
  split; [reflexivity|].
  pose proof (reopen_is_independent reopen_twice_rows "ETH_short"
    (mkSnapshot 2 [("ETH_short", mkPosData "ETH" "short" 100 50 3 (Some "5x"))])
    (mkSnapshot 3 [("BTC_long", mkPosData "BTC" "long" 100 99 3 (Some "5x"))])
    (mkSnapshot 4 [("ETH_short", mkPosData "ETH" "short" 100 51 3 (Some "5x"))])
    (mkSnapshot 2 [("ETH_short", mkPosData "ETH" "short" 100 50 3 (Some "5x"))])
    [mkSnapshot 1 [("BTC_long", mkPosData "BTC" "long" 100 101 3 (Some "5x"))]]
    [] [] [] [] (mkPosData "ETH" "short" 100 50 3 (Some "5x"))
    eq_refl) as H.
  destruct H as (H1 & _ & _ & _ & _ & H6 & _).
  - cbn. unfold has_key. vm_compute. discriminate.
  - repeat constructor.
  - repeat constructor. unfold has_key. vm_compute. discriminate.
  - repeat constructor.
  - reflexivity.
  - reflexivity.
  - destruct (H6 eq_refl) as [H6a H6b].
    split; [exact H1|]. split; [exact H6a | exact H6b].
Defined.

Lemma tracked_keys_after_pass_witness :
  position_start_times (reconcile (snapshot_sequence reopen_rows)) !! "BTC_long"
    = Some 3 ∧
  ∃ (j : nat) (first : Snapshot),
    snapshot_sequence reopen_rows !! j = Some first ∧ 3 = created_at first ∧
    present_between "BTC_long" (snapshot_sequence reopen_rows) j
      (pred (length (snapshot_sequence reopen_rows))) ∧
    run_start "BTC_long" (snapshot_sequence reopen_rows) j.
Proof.
  assert (position_start_times (reconcile (snapshot_sequence reopen_rows)) !! "BTC_long"
          = Some 3) as Ht by reflexivity.
  split; [exact Ht|].
  destruct (tracked_keys_after_pass reopen_rows "BTC_long") as [_ H].
  exact (H _ Ht).
Defined.

(** ** Rows that repeat a key *)

Section dict_lookup.
Context {K V : Type} `{EqDecision K}.
Implicit Types (k : K) (v : V) (d : list (K * V)).

Lemma dict_get_set k k' v d :
  dict_get k (dict_set k' v d) = if decide (k = k') then Some v else dict_get k d.
Proof.
  induction d as [|[k1 v1] d IH].
  - cbn [dict_set dict_get]. by destruct (decide (k = k')).
  - cbn [dict_set]. destruct (decide (k' = k1)) as [->|Hne]; cbn [dict_get].
    + by destruct (decide (k = k1)).
    + rewrite IH. destruct (decide (k = k1)) as [->|?]; [|done].
      by rewrite decide_False by done.
Qed.

Lemma dict_get_alter (f : V → V) k k' d :
  dict_get k (dict_alter f k' d)
  = if decide (k = k') then f <$> dict_get k d else dict_get k d.
Proof.
  induction d as [|[k1 v1] d IH].
  - cbn [dict_alter dict_get]. by destruct (decide (k = k')).
  - cbn [dict_alter]. destruct (decide (k' = k1)) as [->|Hne]; cbn [dict_get].
    + destruct (decide (k = k1)); [done|]. done.
    + rewrite IH. destruct (decide (k = k1)) as [->|?]; [|done].
      by rewrite decide_False by done.
Qed.
End dict_lookup.

Lemma last_filter_snoc {A} (P : A → Prop) `{∀ x, Decision (P x)} (l : list A) (x : A) :
  last (filter P (l ++ [x])) = if decide (P x) then Some x else last (filter P l).
Proof.
  rewrite filter_app, filter_cons, filter_nil.
  destruct (decide (P x)); [apply last_snoc | by rewrite app_nil_r].
Qed.

Lemma stored_record_add_row (id : Z) (k : string) (m : list (Z * Snapshot))
    (row : Row) :
  stored_record id k (add_row m row)
  = if decide (row_snap_id row = id ∧ pos_key (row_symbol row) (row_side row) = k)
    then Some (pos_data_of_row row)
    else stored_record id k m.
Proof.
  unfold stored_record, add_row. rewrite dict_get_alter.
  destruct (decide (id = row_snap_id row)) as [->|Hid].
  - destruct (dict_mem (row_snap_id row) m) eqn:Hm; unfold dict_mem in Hm.
    + destruct (dict_get (row_snap_id row) m) as [snap|] eqn:Hg; [|done].
      cbn. rewrite dict_get_set.
      destruct (decide (k = pos_key (row_symbol row) (row_side row))) as [->|Hk].
      * by rewrite decide_True.
      * rewrite decide_False; [done|]. intros [_ ?]. done.
    + destruct (dict_get (row_snap_id row) m) as [snap|] eqn:Hg; [done|].
      rewrite dict_get_set, decide_True by done. cbn.
      destruct (decide (k = pos_key (row_symbol row) (row_side row))) as [->|Hk].
      * by rewrite decide_True.
      * rewrite decide_False; [done|]. intros [_ ?]. done.
  - rewrite decide_False by (intros [? _]; done).
    destruct (dict_mem (row_snap_id row) m); [done|].
    by rewrite dict_get_set, decide_False.
Qed.

Lemma stored_record_build (id : Z) (k : string) (rows : list Row) :
  stored_record id k (build_snapshots_map rows)
  = pos_data_of_row <$> last (rows_of id k rows).
Proof.
  unfold build_snapshots_map, rows_of.
  induction rows as [|row rows IH] using rev_ind; [done|].
  rewrite fold_left_app. cbn [fold_left].
  rewrite stored_record_add_row, last_filter_snoc, IH.
  by destruct (decide _).
Qed.

Lemma built_record (rows : list Row) (id : Z) (snap : Snapshot) (k : string) :
  (id, snap) ∈ build_snapshots_map rows →
  NoDup (positions snap).*1 ∧
  dict_get k (positions snap) = pos_data_of_row <$> last (rows_of id k rows).
Proof.
  intros Hin.
  pose proof (build_snapshots_map_inv rows) as [Hkeys Hwf _ _].
  destruct (Hwf _ _ Hin) as [[Hnd _] _]. split; [done|].
  rewrite <- stored_record_build. unfold stored_record.
  rewrite (dict_get_elem id snap); [done | | done].
  rewrite Hkeys. apply first_seen_NoDup.
Qed.


(** X9. A snapshot holds one record per key, and when several fetched rows
    of a snapshot have the same key, the record is that of the last of
    them: the earlier ones are overwritten. *)
Theorem last_row_of_a_key_wins (rows : list Row) (id : Z) (snap : Snapshot)
    (k : string) :
  (id, snap) ∈ build_snapshots_map rows →
  NoDup (positions snap).*1 ∧
  dict_get k (positions snap) = pos_data_of_row <$> last (rows_of id k rows).
Proof. apply built_record. Qed.

Lemma last_row_of_a_key_wins_witness :
  (1, mkSnapshot 1
        [("BTC_long", mkPosData "BTC" "long" 100 102 3 (Some "5x"));
         ("ETH_short", mkPosData "ETH" "short" 100 50 3 (Some "5x"))])
    ∈ build_snapshots_map dup_rows ∧
  Some (mkPosData "BTC" "long" 100 102 3 (Some "5x"))
    = pos_data_of_row <$> last (rows_of 1 "BTC_long" dup_rows).
Proof.
  assert ((1, mkSnapshot 1
        [("BTC_long", mkPosData "BTC" "long" 100 102 3 (Some "5x"));
         ("ETH_short", mkPosData "ETH" "short" 100 50 3 (Some "5x"))])
    ∈ build_snapshots_map dup_rows) as Hin.
  { apply elem_of_cons. by left. }
  split; [exact Hin|].
  exact (proj2 (last_row_of_a_key_wins dup_rows 1 _ "BTC_long" Hin)).
Defined.

(** ** Grouping undoes the join *)

Lemma rows_of_join_other (id : Z) (k : string) (s : AccountSnapshot)
    (ops : list OpenPositionRow) :
  as_id s ≠ id →
  rows_of id k (join_row s <$> filter (λ op, as_id s = op_snapshot_id op) ops) = [].
Proof.
  intros Hne. apply filter_none. intros row Hrow [Hid _].
  apply list_elem_of_fmap in Hrow as (op & -> & _). done.
Qed.

Lemma rows_of_join_same (k : string) (s : AccountSnapshot)
    (ops : list OpenPositionRow) :
  rows_of (as_id s) k
    (join_row s <$> filter (λ op, as_id s = op_snapshot_id op) ops)
  = join_row s <$> ops_of (as_id s) k ops.
Proof.
  unfold rows_of, ops_of. induction ops as [|op ops IH]; [done|].
  rewrite !filter_cons.
  destruct (decide (as_id s = op_snapshot_id op)) as [Hid|Hid].
  - rewrite fmap_cons, filter_cons. cbn [join_row row_snap_id row_symbol row_side].
    destruct (decide (op_snapshot_id op = as_id s
                      ∧ pos_key (op_symbol op) (op_side op) = k)) as [[_ Hk]|Hn].
    + rewrite decide_True by done. rewrite fmap_cons. by rewrite <- IH.
    + rewrite decide_False by (intros [_ ?]; apply Hn; done). exact IH.
  - rewrite decide_False by (intros [? _]; congruence). exact IH.
Qed.

Lemma rows_of_join (k : string) (s : AccountSnapshot)
    (account_snapshots : list AccountSnapshot) (ops : list OpenPositionRow) :
  NoDup (as_id <$> account_snapshots) → s ∈ account_snapshots →
  rows_of (as_id s) k
    (s' ← account_snapshots;
     join_row s' <$> filter (λ op, as_id s' = op_snapshot_id op) ops)
  = join_row s <$> ops_of (as_id s) k ops.
Proof.
  induction account_snapshots as [|s0 l IH]; intros Hnd Hin.
  - by apply elem_of_nil in Hin.
  - rewrite fmap_cons in Hnd. apply NoDup_cons in Hnd as [Hs0 Hnd].
    rewrite bind_cons. unfold rows_of at 1. rewrite filter_app.
    fold (rows_of (as_id s) k (join_row s0 <$> filter (λ op, as_id s0 = op_snapshot_id op) ops)).
    fold (rows_of (as_id s) k
            (s' ← l; join_row s' <$> filter (λ op, as_id s' = op_snapshot_id op) ops)).
    apply elem_of_cons in Hin as [->|Hin].
    + rewrite rows_of_join_same.
      assert (rows_of (as_id s0) k
                (s' ← l; join_row s' <$> filter (λ op, as_id s' = op_snapshot_id op) ops)
              = []) as ->; [|by rewrite app_nil_r].
      apply filter_none. intros row Hrow [Hid _].
      apply list_elem_of_bind in Hrow as (s' & Hrow & Hs').
      apply list_elem_of_fmap in Hrow as (op & -> & _). cbn in Hid.
      apply Hs0. rewrite <- Hid. apply list_elem_of_fmap. by exists s'.
    + rewrite rows_of_join_other, IH; [done | done | done |].
      intros Heq. apply Hs0. rewrite Heq. apply list_elem_of_fmap. by exists s.
Qed.

Lemma fetch_rows_query_result (account_snapshots : list AccountSnapshot)
    (open_positions : list OpenPositionRow) :
  query_result account_snapshots open_positions
    (fetch_rows account_snapshots open_positions).
Proof. split; [apply sorted_perm | apply sorted_Sorted]. Qed.

Lemma joined_elem (account_snapshots : list AccountSnapshot)
    (open_positions : list OpenPositionRow) (row : Row) :
  row ∈ joined account_snapshots open_positions ↔
  ∃ s op, s ∈ account_snapshots ∧ op ∈ open_positions ∧
          as_id s = op_snapshot_id op ∧ row = join_row s op.
Proof.
  unfold joined. rewrite list_elem_of_bind. split.
  - intros (s & Hrow & Hs). apply list_elem_of_fmap in Hrow as (op & -> & Hop).
    apply list_elem_of_filter in Hop as [Hid Hop]. by exists s, op.
  - intros (s & op & Hs & Hop & Hid & ->). exists s. split; [|done].
    apply list_elem_of_fmap. exists op. split; [done|].
    by apply list_elem_of_filter.
Qed.

Lemma last_perm_elem {A} (l l' : list A) (x : A) :
  l ≡ₚ l' → last l = Some x → x ∈ l'.
Proof.
  intros Hp Hl. rewrite <- Hp. rewrite last_Some in Hl.
  destruct Hl as [l0 ->]. apply elem_of_app. right. by left.
Qed.

(** X10. When the ids of the account snapshots are distinct, grouping the
    rows of the query gives back the tables, in whatever order the query
    returns rows that tie on the timestamp: the snapshot built for an
    account snapshot has that snapshot's timestamp; a key has a record
    exactly when the snapshot has an open-position row with that key; the
    record is that of one of these rows, missing numbers replaced by 0,
    and of the only one when there is one.  Which of several rows of one
    snapshot and one key is recorded is left to the order of the query
    result: the two orders of two such rows give two different records. *)
Theorem grouping_undoes_the_join (account_snapshots : list AccountSnapshot)
    (open_positions : list OpenPositionRow) (rows : list Row)
    (s : AccountSnapshot) (snap : Snapshot) (k : string) :
  NoDup (as_id <$> account_snapshots) →
  s ∈ account_snapshots →
  query_result account_snapshots open_positions rows →
  (as_id s, snap) ∈ build_snapshots_map rows →
  created_at snap = as_created_at s ∧
  (dict_get k (positions snap) = None
   ↔ ops_of (as_id s) k open_positions = []) ∧
  (∀ pd, dict_get k (positions snap) = Some pd →
     ∃ op, op ∈ ops_of (as_id s) k open_positions ∧
           pd = pos_data_of_row (join_row s op)) ∧
  (∀ op, ops_of (as_id s) k open_positions = [op] →
     dict_get k (positions snap) = Some (pos_data_of_row (join_row s op))) ∧
  (query_result twin_snapshots twin_positions
     (fetch_rows twin_snapshots twin_positions) ∧
   query_result twin_snapshots twin_positions twin_rows_reversed ∧
   stored_record 1 "BTC_long"
     (build_snapshots_map (fetch_rows twin_snapshots twin_positions))
   = Some (mkPosData "BTC" "long" 100 102 4 None) ∧
   stored_record 1 "BTC_long" (build_snapshots_map twin_rows_reversed)
   = Some (mkPosData "BTC" "long" 100 101 3 None)).
Proof.
  intros Hnd Hs [Hperm _] Hin.
  assert (∀ row, row ∈ rows → row_snap_id row = as_id s →
                 row_created_at row = as_created_at s) as Htime.
  { intros row Hrow Hid. rewrite Hperm in Hrow.
    apply joined_elem in Hrow as (s' & op & Hs' & _ & _ & ->).
    cbn in Hid |- *.
    apply list_elem_of_lookup in Hs' as [i Hi].
    pose proof Hs as Hs2. apply list_elem_of_lookup in Hs2 as [j Hj].
    assert (i = j) as ->.
    { eapply NoDup_lookup; [exact Hnd | | ];
        rewrite list_lookup_fmap; [by rewrite Hi | by rewrite Hj, Hid]. }
    rewrite Hi in Hj. by injection Hj as ->. }
  assert (rows_of (as_id s) k rows
          ≡ₚ join_row s <$> ops_of (as_id s) k open_positions) as Hrows.
  { rewrite <- (rows_of_join k s account_snapshots open_positions Hnd Hs).
    unfold rows_of. by rewrite Hperm. }
  destruct (built_record rows (as_id s) snap k Hin) as [_ Hrec].
  split; [|split; [|split; [|split]]].
  - destruct (inv_time _ _ (build_snapshots_map_inv rows) _ _ Hin)
      as (row & Hfirst & ->).
    unfold first_row in Hfirst. apply head_Some_elem_of in Hfirst.
    apply list_elem_of_filter in Hfirst as [Hid Hrow]. by apply Htime.
  - rewrite Hrec, fmap_None, last_None. split.
    + intros Hnil. rewrite Hnil in Hrows. symmetry in Hrows.
      apply Permutation_nil_r in Hrows. by apply fmap_nil_inv in Hrows.
    + intros Hnil. rewrite Hnil in Hrows. by apply Permutation_nil_r.
  - intros pd Hpd. rewrite Hrec in Hpd.
    apply fmap_Some in Hpd as (row & Hlast & ->).
    apply (last_perm_elem _ _ _ Hrows) in Hlast.
    apply list_elem_of_fmap in Hlast as (op & -> & Hop). by exists op.
  - intros op Hop. rewrite Hop in Hrows. apply Permutation_singleton_r in Hrows.
    by rewrite Hrec, Hrows.
  - split; [apply fetch_rows_query_result|]. split; [|split; reflexivity].
    split; [apply reverse_Permutation|].
    apply Sorted_cons; [apply Sorted_cons; [apply Sorted_nil | apply HdRel_nil]|].
    apply HdRel_cons. reflexivity.
Qed.

Lemma grouping_undoes_the_join_witness :
  NoDup (as_id <$> gap_snapshots) ∧
  mkAccountSnapshot 1 10 1000 ∈ gap_snapshots ∧
  query_result gap_snapshots gap_positions
    (fetch_rows gap_snapshots gap_positions) ∧
  (1, mkSnapshot 10 [("BTC_long", mkPosData "BTC" "long" 100 101 3 None)])
    ∈ build_snapshots_map (fetch_rows gap_snapshots gap_positions) ∧
  ops_of 1 "BTC_long" gap_positions
  = [mkOpenPositionRow 1 "BTC" "long" (Some 100%Q) (Some 101%Q) (Some 3%Q) None] ∧
  dict_get "BTC_long" [("BTC_long", mkPosData "BTC" "long" 100 101 3 None)]
  = Some (pos_data_of_row
            (join_row (mkAccountSnapshot 1 10 1000)
               (mkOpenPositionRow 1 "BTC" "long" (Some 100%Q) (Some 101%Q)
                  (Some 3%Q) None))).
Proof.
  assert (NoDup (as_id <$> gap_snapshots)) as Hnd.
  { apply NoDup_cons. split; [by vm_compute; intros H; repeat (apply elem_of_cons in H as [H|H]; [done|]); apply elem_of_nil in H|].
    apply NoDup_cons. split; [by vm_compute; intros H; repeat (apply elem_of_cons in H as [H|H]; [done|]); apply elem_of_nil in H|].
    apply NoDup_singleton. }
  assert (mkAccountSnapshot 1 10 1000 ∈ gap_snapshots) as Hs
    by (apply elem_of_cons; by left).
  assert (query_result gap_snapshots gap_positions
            (fetch_rows gap_snapshots gap_positions)) as Hq.
  { apply fetch_rows_query_result. }
  assert ((1, mkSnapshot 10 [("BTC_long", mkPosData "BTC" "long" 100 101 3 None)])
            ∈ build_snapshots_map (fetch_rows gap_snapshots gap_positions)) as Hin
    by (apply elem_of_cons; by left).
  split; [exact Hnd|]. split; [exact Hs|]. split; [exact Hq|].
  split; [exact Hin|]. split; [reflexivity|].
  destruct (grouping_undoes_the_join gap_snapshots gap_positions
              (fetch_rows gap_snapshots gap_positions)
              (mkAccountSnapshot 1 10 1000) _ "BTC_long" Hnd Hs Hq Hin)
    as (_ & _ & _ & H & _).
  exact (H _ eq_refl).
Defined.

(** ** Keys and records *)

(** X11. When every fetched row has the side long or short, the string key
    stands for the pair of symbol and side: the record a snapshot holds
    under the key of a symbol and such a side has that symbol and that
    side. *)
Theorem record_under_key_has_symbol_and_side (rows : list Row) (id : Z)
    (snap : Snapshot) (sym sd : string) (pd : PosData) :
  Forall (λ row, row_side row ∈ ["long"; "short"]) rows →
  sd ∈ ["long"; "short"] →
  (id, snap) ∈ build_snapshots_map rows →
  dict_get (pos_key sym sd) (positions snap) = Some pd →
  pd_symbol pd = sym ∧ pd_side pd = sd.
Proof.
  intros Hsides Hsd Hin Hg. apply dict_get_Some_elem in Hg.
  destruct (inv_rows _ _ (build_snapshots_map_inv rows) _ _ _ _ Hin Hg)
    as (row & Hrow & _ & Hkey & ->).
  rewrite Forall_forall in Hsides.
  destruct (pos_key_inj _ _ _ _ Hsd (Hsides _ Hrow) Hkey) as [-> ->]. done.
Qed.

Lemma record_under_key_has_symbol_and_side_witness :
  Forall (λ row, row_side row ∈ ["long"; "short"]) dup_rows ∧
  "long" ∈ ["long"; "short"] ∧
  (1, mkSnapshot 1
        [("BTC_long", mkPosData "BTC" "long" 100 102 3 (Some "5x"));
         ("ETH_short", mkPosData "ETH" "short" 100 50 3 (Some "5x"))])
    ∈ build_snapshots_map dup_rows ∧
  pd_symbol (mkPosData "BTC" "long" 100 102 3 (Some "5x")) = "BTC" ∧
  pd_side (mkPosData "BTC" "long" 100 102 3 (Some "5x")) = "long".
Proof.
  assert (Forall (λ row, row_side row ∈ ["long"; "short"]) dup_rows) as Hsides.
  { repeat constructor. }
  assert ("long" ∈ ["long"; "short"]) as Hsd by (apply elem_of_cons; by left).
  assert ((1, mkSnapshot 1
        [("BTC_long", mkPosData "BTC" "long" 100 102 3 (Some "5x"));
         ("ETH_short", mkPosData "ETH" "short" 100 50 3 (Some "5x"))])
    ∈ build_snapshots_map dup_rows) as Hin by (apply elem_of_cons; by left).
  split; [exact Hsides|]. split; [exact Hsd|]. split; [exact Hin|].
  exact (record_under_key_has_symbol_and_side dup_rows 1 _ "BTC" "long" _
           Hsides Hsd Hin eq_refl).
Defined.

(** ** The balance series *)

Lemma date_mono (t1 t2 : datetime) : t1 ≤ t2 → date t1 ≤ date t2.
Proof.
  intros Hle. unfold date.
  assert (t1 / us_per_day ≤ t2 / us_per_day); [|lia].
  apply Z.div_le_mono; [done | exact Hle].
Qed.

Lemma List_last_default {A} (l : list A) (d : A) :
  List.last l d = default d (last l).
Proof.
  induction l as [|x l IH]; [done|].
  destruct l as [|y l]; [done|].
  rewrite last_cons_cons. exact IH.
Qed.

Lemma regimes_of_ascending (points : list BalancePoint) :
  ascending points → archive_points points ++ current_points points = points.
Proof.
  unfold ascending, archive_points, current_points.
  induction 1 as [|p l Hs IH Hall]; [done|].
  rewrite !filter_cons.
  destruct (decide (date (timestamp p) < split_date)) as [Hlt|Hge].
  - rewrite decide_False by lia. simpl. by rewrite IH.
  - rewrite decide_True by lia.
    assert (∀ q, q ∈ l → split_date ≤ date (timestamp q)) as Hlater.
    { rewrite Forall_forall in Hall. intros q Hq.
      pose proof (date_mono _ _ (Hall q Hq)). lia. }
    rewrite (filter_none (λ q, date (timestamp q) < split_date))
      by (intros q Hq; specialize (Hlater q Hq); lia).
    simpl. f_equal. clear IH Hs Hall.
    induction l as [|q l IH]; [done|].
    rewrite filter_cons, decide_True by (apply Hlater; left).
    f_equal. apply IH. intros q' Hq'. apply Hlater. by right.
Qed.

(** X12. For a balance series in ascending order of timestamps the two
    regimes are contiguous: the archive points followed by the current
    points are the series.  So the archive statistics, when there are
    any, start from the balance of the first point of the series, and when
    the current regime has a point its statistics end at the balance of
    the last point of the series. *)
Theorem regimes_of_ascending_series (points : list BalancePoint) :
  ascending points →
  archive_points points ++ current_points points = points ∧
  (∀ st, archive_stats (ui_pnl_stats points) = Some st →
     ∃ p0, head points = Some p0 ∧ initial_balance st = balance_usd p0) ∧
  (current_points points ≠ [] →
     ∃ st pl, current_stats (ui_pnl_stats points) = Some st ∧
              last points = Some pl ∧ current_balance st = balance_usd pl).
Proof.
  intros Hasc. pose proof (regimes_of_ascending _ Hasc) as Hsplit.
  split; [done|]. split.
  - intros st. destruct points as [|p points]; [done|].
    unfold ui_pnl_stats, archive_stats, compute_archive_stats.
    destruct (archive_points (p :: points)) as [|first rest] eqn:Ha; [done|].
    intros Hst. injection Hst as <-. cbn [initial_balance].
    exists first. split; [|done]. by rewrite <- Hsplit.
  - intros Hne. destruct points as [|p points]; [done|].
    unfold ui_pnl_stats, current_stats, compute_current_stats.
    destruct (current_points (p :: points)) as [|c cs] eqn:Hc; [done|].
    destruct (last (c :: cs)) as [pl|] eqn:Hl;
      [|by apply last_None in Hl].
    eexists _, pl. split; [reflexivity|]. cbn [current_balance].
    split.
    + rewrite <- Hsplit, last_app, Hl. done.
    + by rewrite List_last_default, Hl.
Qed.

Lemma regimes_of_ascending_series_witness :
  ascending scenario_b ∧
  archive_points scenario_b ++ current_points scenario_b = scenario_b ∧
  ∃ st pl, current_stats (ui_pnl_stats scenario_b) = Some st ∧
           last scenario_b = Some pl ∧ current_balance st = balance_usd pl.
Proof.
  assert (ascending scenario_b) as Hasc.
  { unfold ascending, scenario_b.
    repeat (apply SSorted_cons; [|repeat constructor; vm_compute; discriminate]).
    constructor. }
  destruct (regimes_of_ascending_series scenario_b Hasc) as (H1 & _ & H3).
  split; [exact Hasc|]. split; [exact H1|].
  apply H3. discriminate.
Defined.

(** X13. The archive statistics exist exactly when some balance point is
    before the split date; they start from the first and end at the last
    such point.  With a positive first balance, [pnl_percent] is not
    negative when the balance did not fall, not positive when it did not
    rise, and not below -100 when the last balance is not negative. *)
Theorem archive_stats_spec (points : list BalancePoint) :
  (archive_stats (ui_pnl_stats points) = None ↔ archive_points points = []) ∧
  (∀ st, archive_stats (ui_pnl_stats points) = Some st →
     ∃ first final,
       head (archive_points points) = Some first ∧
       last (archive_points points) = Some final ∧
       initial_balance st = balance_usd first ∧
       current_balance st = balance_usd final ∧
       stats_pnl_usd st = (current_balance st - initial_balance st)%Q ∧
       ((0 < initial_balance st)%Q →
        ((initial_balance st <= current_balance st)%Q → (0 <= pnl_percent st)%Q) ∧
        ((current_balance st <= initial_balance st)%Q → (pnl_percent st <= 0)%Q) ∧
        ((0 <= current_balance st)%Q → (-100 <= pnl_percent st)%Q))).
Proof.
  split.
  - destruct points as [|p points]; [done|].
    unfold ui_pnl_stats, archive_stats, compute_archive_stats.
    by destruct (archive_points (p :: points)).
  - intros st. destruct points as [|p points]; [done|].
    unfold ui_pnl_stats, archive_stats, compute_archive_stats.
    destruct (archive_points (p :: points)) as [|first rest] eqn:Ha; [done|].
    destruct (last (first :: rest)) as [final|] eqn:Hl;
      [|by apply last_None in Hl].
    assert (List.last (first :: rest) first = final) as ->
      by (by rewrite List_last_default, Hl).
    intros Hst. injection Hst as <-.
    cbn [initial_balance current_balance stats_pnl_usd pnl_percent].
    exists first, final. split_and!; try done.
    intros Hpos.
    assert (¬ (balance_usd first == 0)%Q) as Hnz.
    { intros H0. rewrite H0 in Hpos. by apply Qlt_irrefl in Hpos. }
    rewrite decide_False by done.
    set (i := balance_usd first) in *. set (c := balance_usd final) in *.
    split_and!.
    + intros Hle.
      change 0%Q with (0 * 100)%Q. apply Qmult_le_compat_r; [|done].
      apply Qle_shift_div_l; [done|]. rewrite Qmult_0_l.
      unfold Qminus. rewrite <- (Qplus_opp_r i). by apply Qplus_le_l.
    + intros Hle.
      change 0%Q with (0 * 100)%Q. apply Qmult_le_compat_r; [|done].
      apply Qle_shift_div_r; [done|]. rewrite Qmult_0_l.
      unfold Qminus. rewrite <- (Qplus_opp_r i). by apply Qplus_le_l.
    + intros Hle.
      change (-100)%Q with (-1 * 100)%Q. apply Qmult_le_compat_r; [|done].
      apply Qle_shift_div_l; [done|].
      assert (-1 * i == 0 + - i)%Q as -> by ring.
      unfold Qminus. by apply Qplus_le_l.
Qed.

Lemma archive_stats_spec_witness :
  archive_stats (ui_pnl_stats scenario_b)
    = Some {| initial_balance := 100; current_balance := 100;
              stats_pnl_usd := 0; pnl_percent := 0 # 100 |} ∧
  (0 < 100)%Q ∧ (0 <= 100)%Q ∧ (-100 <= 0 # 100)%Q.
Proof.
  assert (archive_stats (ui_pnl_stats scenario_b)
    = Some {| initial_balance := 100; current_balance := 100;
              stats_pnl_usd := 0; pnl_percent := 0 # 100 |}) as Hst by reflexivity.
  destruct (archive_stats_spec scenario_b) as [_ H].
  destruct (H _ Hst) as (first & final & _ & _ & _ & _ & _ & Hb).
  split; [exact Hst|]. split; [reflexivity|]. split; [discriminate|].
  apply Hb; [reflexivity | discriminate].
Defined.

(** ** New snapshots only add closed positions *)

Section dict_app.
Context {K V : Type} `{EqDecision K}.
Implicit Types (k : K) (v : V) (d : list (K * V)).

Lemma dict_get_app_r k d0 d : k ∉ d0.*1 → dict_get k (d0 ++ d) = dict_get k d.
Proof.
  induction d0 as [|[k0 v0] d0 IH]; intros Hk; [done|].
  rewrite fmap_cons in Hk. apply not_elem_of_cons in Hk as [Hne Hk].
  cbn [app dict_get]. rewrite decide_False by done. by apply IH.
Qed.

Lemma dict_set_app_r k v d0 d :
  k ∉ d0.*1 → dict_set k v (d0 ++ d) = d0 ++ dict_set k v d.
Proof.
  induction d0 as [|[k0 v0] d0 IH]; intros Hk; [done|].
  rewrite fmap_cons in Hk. apply not_elem_of_cons in Hk as [Hne Hk].
  cbn [app dict_set]. rewrite decide_False by done. by rewrite IH.
Qed.

Lemma dict_alter_app_r (f : V → V) k d0 d :
  k ∉ d0.*1 → dict_alter f k (d0 ++ d) = d0 ++ dict_alter f k d.
Proof.
  induction d0 as [|[k0 v0] d0 IH]; intros Hk; [done|].
  rewrite fmap_cons in Hk. apply not_elem_of_cons in Hk as [Hne Hk].
  cbn [app dict_alter]. rewrite decide_False by done. by rewrite IH.
Qed.
End dict_app.

Lemma add_row_app_r (m0 m : list (Z * Snapshot)) (row : Row) :
  row_snap_id row ∉ m0.*1 → add_row (m0 ++ m) row = m0 ++ add_row m row.
Proof.
  intros Hid. unfold add_row, dict_mem.
  rewrite dict_get_app_r by done.
  destruct (dict_get (row_snap_id row) m).
  - by rewrite dict_alter_app_r.
  - by rewrite dict_set_app_r, dict_alter_app_r.
Qed.

Lemma fold_add_row_app_r (new : list Row) (m0 m : list (Z * Snapshot)) :
  (∀ row, row ∈ new → row_snap_id row ∉ m0.*1) →
  fold_left add_row new (m0 ++ m) = m0 ++ fold_left add_row new m.
Proof.
  revert m. induction new as [|row new IH]; intros m Hids; [done|].
  cbn [fold_left]. rewrite add_row_app_r by (apply Hids; left).
  apply IH. intros r Hr. apply Hids. by right.
Qed.

Lemma build_snapshots_map_app (rows new : list Row) :
  (∀ r r', r ∈ rows → r' ∈ new → row_snap_id r ≠ row_snap_id r') →
  build_snapshots_map (rows ++ new)
  = build_snapshots_map rows ++ build_snapshots_map new.
Proof.
  intros Hids. unfold build_snapshots_map. rewrite fold_left_app.
  rewrite <- (app_nil_r (fold_left add_row rows [])) at 1.
  apply fold_add_row_app_r. intros r' Hr' Hin.
  fold (build_snapshots_map rows) in Hin.
  rewrite (inv_keys _ _ (build_snapshots_map_inv rows)), first_seen_elem in Hin.
  apply list_elem_of_fmap in Hin as (r & Heq & Hr).
  by apply (Hids r r').
Qed.

Section sorted_app.
Context {A : Type} (key : A → Z).

Lemma insert_sorted_app_l (x : A) (s1 s2 : list A) :
  (∀ y, y ∈ s2 → key x ≤ key y) →
  insert_sorted key x (s1 ++ s2) = insert_sorted key x s1 ++ s2.
Proof.
  intros Hle. induction s1 as [|y s1 IH].
  - destruct s2 as [|y s2]; [done|]. cbn [app insert_sorted].
    by rewrite (proj2 (Z.leb_le _ _) (Hle y ltac:(left))).
  - cbn [app insert_sorted]. destruct (key x <=? key y); [done|].
    by rewrite IH.
Qed.

Lemma sorted_app (l1 l2 : list A) :
  (∀ x y, x ∈ l1 → y ∈ l2 → key x ≤ key y) →
  sorted key (l1 ++ l2) = sorted key l1 ++ sorted key l2.
Proof.
  induction l1 as [|x l1 IH]; intros Hle; [done|].
  cbn [app sorted]. rewrite IH by (intros x' y ? ?; apply Hle; [by right | done]).
  apply insert_sorted_app_l. intros y Hy. rewrite sorted_perm in Hy.
  apply Hle; [left | done].
Qed.
End sorted_app.

Lemma built_snapshot_time (rows : list Row) (id : Z) (snap : Snapshot) :
  (id, snap) ∈ build_snapshots_map rows →
  ∃ row, row ∈ rows ∧ created_at snap = row_created_at row.
Proof.
  intros Hin.
  destruct (inv_time _ _ (build_snapshots_map_inv rows) _ _ Hin) as (row & Hfirst & ->).
  exists row. split; [|done].
  unfold first_row in Hfirst. apply head_Some_elem_of in Hfirst.
  by apply list_elem_of_filter in Hfirst as [_ ?].
Qed.

Lemma snapshot_sequence_app (rows new : list Row) :
  (∀ r r', r ∈ rows → r' ∈ new →
     row_snap_id r ≠ row_snap_id r' ∧ row_created_at r ≤ row_created_at r') →
  snapshot_sequence (rows ++ new) = snapshot_sequence rows ++ snapshot_sequence new.
Proof.
  intros Hnew. unfold snapshot_sequence, sorted_snap_items.
  rewrite build_snapshots_map_app by (intros r r' Hr Hr'; by apply Hnew).
  rewrite sorted_app; [by rewrite fmap_app|].
  intros [id1 s1] [id2 s2] H1 H2. cbn [snd].
  destruct (built_snapshot_time _ _ _ H1) as (r & Hr & ->).
  destruct (built_snapshot_time _ _ _ H2) as (r' & Hr' & ->).
  by apply Hnew.
Qed.

Lemma reconcile_from_app_prefix (snaps more : list Snapshot) (st : TrackState) :
  closed_positions (reconcile_from snaps st)
    `prefix_of` closed_positions (reconcile_from (snaps ++ more) st).
Proof.
  revert st. induction snaps as [|curr rest IH]; intros st.
  - apply reconcile_from_closed_prefix.
  - cbn [app reconcile_from]. destruct rest as [|next rest].
    + cbn [reconcile_from head app]. rewrite iteration_closed_None.
      etrans; [apply (iteration_closed_prefix curr (head more))|].
      apply reconcile_from_closed_prefix.
    + apply IH.
Qed.

(** X14. Rows of new snapshots that are not older than the snapshots
    already fetched only add to the result: the snapshots walked are the
    old ones followed by the new ones, and the closed positions are the old
    closed positions together with further ones. *)
Theorem new_snapshots_only_add (rows new : list Row) :
  (∀ r r', r ∈ rows → r' ∈ new →
     row_snap_id r ≠ row_snap_id r' ∧ row_created_at r ≤ row_created_at r') →
  snapshot_sequence (rows ++ new) = snapshot_sequence rows ++ snapshot_sequence new ∧
  ∃ later, get_closed_positions (rows ++ new)
           ≡ₚ get_closed_positions rows ++ later.
Proof.
  intros Hnew. pose proof (snapshot_sequence_app _ _ Hnew) as Hseq.
  split; [done|].
  destruct (reconcile_from_app_prefix (snapshot_sequence rows)
              (snapshot_sequence new) init_state) as [later Hlater].
  exists later. rewrite !get_closed_positions_perm, Hseq. unfold reconcile.
  by rewrite Hlater.
Qed.

Lemma new_snapshots_only_add_witness :
  (∀ r r', r ∈ take 3 scenario_a → r' ∈ drop 3 scenario_a →
     row_snap_id r ≠ row_snap_id r' ∧ row_created_at r ≤ row_created_at r') ∧
  snapshot_sequence (take 3 scenario_a ++ drop 3 scenario_a)
    = snapshot_sequence (take 3 scenario_a) ++ snapshot_sequence (drop 3 scenario_a) ∧
  ∃ later, get_closed_positions (take 3 scenario_a ++ drop 3 scenario_a)
           ≡ₚ get_closed_positions (take 3 scenario_a) ++ later.
Proof.
  assert (∀ r r', r ∈ take 3 scenario_a → r' ∈ drop 3 scenario_a →
     row_snap_id r ≠ row_snap_id r' ∧ row_created_at r ≤ row_created_at r') as Hnew.
  { intros r r' Hr Hr'. cbn in Hr, Hr'.
    apply list_elem_of_singleton in Hr' as ->.
    repeat (apply elem_of_cons in Hr as [->|Hr]; [by vm_compute|]).
    by apply elem_of_nil in Hr. }
  split; [exact Hnew|].
  exact (new_snapshots_only_add _ _ Hnew).
Defined.
